(** * EOSP-Threadpool: a priority thread pool with bounded recursive submission

    Shallow embedding of [src/Threadpool.hpp] (class [ThreadPool]) and the
    properties of its specification.

    The class is embedded as seen from one thread of control: the state of
    the pool is passed explicitly through [addTask], [waitForTask],
    [tryToWork] and [workerLoop]; the callables handed to the pool are
    programs ([action]) that may call back into the pool; the mutex
    [taskFrame.mtx] is a field recording its owner, so that the locking
    discipline of the code is part of the model.  The steps of several
    threads are not interleaved: what another thread does between two
    calls is a change of the state between them.  The closures in the
    queue capture a local variable of [addTask] by reference, so the
    lifetime of that variable is part of the state.  The heap behind
    [std::priority_queue] is the sequence algorithm of GNU libstdc++
    ([<bits/stl_heap.h>]). *)

From stdpp Require Import base list gmap strings.
From Stdlib Require Import ZArith Lia ZifyNat Sorted.

(** ** The heap algorithms used by [std::priority_queue]

    [std::priority_queue<T, std::deque<T>, Compare>] keeps its elements in
    the underlying sequence [c] and maintains them with [std::push_heap] and
    [std::pop_heap].  The sequence is a [list]; positions are read with [!!]
    and written with [<[ _ := _ ]>].  Distances are natural numbers: every
    subtraction below is applied to operands for which it agrees with the
    signed arithmetic of the library. *)

Module stl_heap.
Section algorithms.
Context {T : Type} (comp : T → T → bool).

(** The [while] loop of [std::__push_heap]: the hole climbs while its
    parent compares less than [value]; the loop runs at most [holeIndex]
    times, which is the first argument. *)
Fixpoint push_heap_loop (n : nat) (c : list T) (holeIndex topIndex : nat)
    (value : T) : list T :=
  let parent := (holeIndex - 1) / 2 in
  match n, c !! parent with
  | S n', Some x =>
      if bool_decide (topIndex < holeIndex) && comp x value
      then push_heap_loop n' (<[holeIndex := x]> c) parent topIndex value
      else <[holeIndex := value]> c
  | _, _ => <[holeIndex := value]> c
  end.

Definition __push_heap (c : list T) (holeIndex topIndex : nat) (value : T)
    : list T :=
  push_heap_loop holeIndex c holeIndex topIndex value.

(** [std::push_heap(first, last, comp)]: the element at [last - 1] is
    sifted up into the heap [first, last - 1). *)
Definition push_heap (c : list T) : list T :=
  match c !! (length c - 1) with
  | Some value => __push_heap c (length c - 1) 0 value
  | None => c
  end.

(** The first [while] loop of [std::__adjust_heap]: the hole descends
    along the larger child as long as it has two children. *)
Fixpoint adjust_heap_loop (n : nat) (c : list T)
    (holeIndex secondChild len : nat) : list T * nat * nat :=
  match n with
  | S n' =>
      if bool_decide (secondChild < (len - 1) / 2) then
        let secondChild := 2 * (secondChild + 1) in
        let secondChild :=
          match c !! secondChild, c !! (secondChild - 1) with
          | Some a, Some b =>
              if comp a b then secondChild - 1 else secondChild
          | _, _ => secondChild
          end in
        let c := match c !! secondChild with
                 | Some x => <[holeIndex := x]> c
                 | None => c
                 end in
        adjust_heap_loop n' c secondChild secondChild len
      else (c, holeIndex, secondChild)
  | O => (c, holeIndex, secondChild)
  end.

Definition __adjust_heap (c : list T) (holeIndex len : nat) (value : T)
    : list T :=
  let topIndex := holeIndex in
  let '(c, holeIndex, secondChild) :=
    adjust_heap_loop len c holeIndex holeIndex len in
  let '(c, holeIndex) :=
    if Nat.even len && bool_decide (secondChild = (len - 2) / 2) then
      let secondChild := 2 * (secondChild + 1) in
      (match c !! (secondChild - 1) with
       | Some x => <[holeIndex := x]> c
       | None => c
       end, secondChild - 1)
    else (c, holeIndex) in
  __push_heap c holeIndex topIndex value.

(** [std::pop_heap(first, last, comp)]: the first element is moved to
    [last - 1] and the element that was there is placed into the heap
    [first, last - 1). *)
Definition pop_heap (c : list T) : list T :=
  if bool_decide (1 < length c) then
    let last := length c - 1 in
    match c !! last, c !! 0 with
    | Some value, Some first => __adjust_heap (<[last := first]> c) 0 last value
    | _, _ => c
    end
  else c.

(** The members of [std::priority_queue] that the pool calls. *)
Definition emplace (x : T) (c : list T) : list T := push_heap (c ++ [x]).
Definition top (c : list T) : option T := c !! 0.
Definition pop (c : list T) : list T :=
  let c := pop_heap c in take (length c - 1) c.
Definition empty (c : list T) : bool := bool_decide (length c = 0).

End algorithms.
End stl_heap.

(** ** The heap property

    [parent i] is the position above [i] in the implicit binary tree.  A
    sequence is a heap for [key] on its first [len] positions when no
    element has a key greater than the one above it.  While an element is
    being sifted, one position, the hole, holds no element: the elements
    around it are ordered as if the hole were bridged. *)
Definition parent (i : nat) : nat := (i - 1) / 2.

Definition is_heap_until {T} (key : T → Z) (len : nat) (c : list T) : Prop :=
  ∀ i x y, 0 < i < len → c !! i = Some x → c !! parent i = Some y →
           (key x ≤ key y)%Z.

Definition is_heap {T} (key : T → Z) (c : list T) : Prop :=
  is_heap_until key (length c) c.

Definition hole_heap {T} (key : T → Z) (len : nat) (c : list T) (h : nat)
    : Prop :=
  (∀ i x y, 0 < i < len → i ≠ h → parent i ≠ h →
            c !! i = Some x → c !! parent i = Some y → (key x ≤ key y)%Z) ∧
  (∀ i x y, 0 < i < len → parent i = h → 0 < h →
            c !! i = Some x → c !! parent h = Some y → (key x ≤ key y)%Z).

Definition above_children {T} (key : T → Z) (len : nat) (c : list T)
    (h : nat) (v : T) : Prop :=
  ∀ i x, 0 < i < len → parent i = h → c !! i = Some x → (key x ≤ key v)%Z.

(** The heap property as a test. *)
Definition is_heapb {T} (key : T → Z) (c : list T) : bool :=
  forallb (λ i, match c !! i, c !! parent i with
                | Some x, Some y => bool_decide (key x ≤ key y)%Z
                | _, _ => true
                end)
          (seq 1 (length c - 1)).

Local Open Scope Z_scope.

(** ** Data model *)

(** [std::thread::id]. *)
Definition thread_id := nat.

(** What a callable may throw. *)
Inductive exn : Type :=
| Exception (what : string).

(** The result type of every callable is taken to be an integer
    ([ReturnType]); a [void] callable returns a value that nobody reads. *)
Inductive outcome : Type :=
| Value (v : Z)
| Failure (e : exn).

(** A [std::future<ReturnType>]: default-constructed, it has no shared
    state; otherwise it refers to the shared state at an address. *)
Inductive future : Type :=
| NoState
| SharedState (c : nat).

(** The shared state of a promise/future pair.  After [future::get] the
    future no longer refers to it ([Retrieved]). *)
Inductive shared_state : Type :=
| Pending
| Ready (o : outcome)
| Retrieved.

(** The callables [f] handed to the pool.  A callable computes, and may
    call the two public operations of the pool it runs in: it returns,
    throws, submits a callable ([addTask(priority, f)]) or waits for a
    future ([waitForTask(fut)]) and goes on with what the call returned. *)
Inductive action : Type :=
| Return (v : Z)
| Throw (e : exn)
| AddTask (priority : Z) (f : action) (k : future → action)
| WaitForTask (fut : future) (k : Z → action).

(** The object [*pFunc], a [std::packaged_task<ReturnType()>]: it holds
    the bound callable and the shared state of the future that [addTask]
    returns. *)
Record packaged_task : Type := mkTask {
  promise : nat;
  boundFunc : action
}.

(** An element of the queue: [std::function<void()> func] of [addTask],
    the closure [[&pFunc](){ [*pFunc](); }].  It captures the local
    variable [pFunc] by reference: what it holds is the address of that
    variable, in the activation of [addTask] that made the closure.  It
    owns nothing. *)
Record closure : Type := mkClosure {
  pFunc : nat
}.

(** The data members of [ThreadPool].  [cv] has no state of its own.
    [mtx] is [taskFrame.mtx], with the thread that owns it.  [taskQueue] is
    the sequence under [taskFrame.taskQueue].  The counters of
    [RecursionMap], [maxRecursion] and [threadNumber] are [unsigned int].
    [shared] is the free store of shared states, which outlives the calls
    that allocate them.  [locals] holds the variable [pFunc] of every
    activation of the queued branch of [addTask], in the order in which
    they were entered: [Some t] while the activation has not returned,
    [t] being the packaged task that the shared pointer owns alone; [None]
    once it has returned, when the variable is gone and the packaged task
    has been destroyed with it. *)
Record ThreadPool : Type := mkPool {
  stop : bool;
  maxRecursion : Z;
  threadNumber : Z;
  mtx : option thread_id;
  taskQueue : list (Z * closure);
  workers : list thread_id;
  RecursionMap : gmap thread_id Z;
  shared : list shared_state;
  locals : list (option packaged_task)
}.

Definition set_stop (b : bool) (p : ThreadPool) : ThreadPool :=
  mkPool b (maxRecursion p) (threadNumber p) (mtx p) (taskQueue p)
         (workers p) (RecursionMap p) (shared p) (locals p).
Definition set_mtx (o : option thread_id) (p : ThreadPool) : ThreadPool :=
  mkPool (stop p) (maxRecursion p) (threadNumber p) o (taskQueue p)
         (workers p) (RecursionMap p) (shared p) (locals p).
Definition set_taskQueue (q : list (Z * closure)) (p : ThreadPool)
    : ThreadPool :=
  mkPool (stop p) (maxRecursion p) (threadNumber p) (mtx p) q
         (workers p) (RecursionMap p) (shared p) (locals p).
Definition set_RecursionMap (m : gmap thread_id Z) (p : ThreadPool)
    : ThreadPool :=
  mkPool (stop p) (maxRecursion p) (threadNumber p) (mtx p) (taskQueue p)
         (workers p) m (shared p) (locals p).
Definition set_shared (s : list shared_state) (p : ThreadPool) : ThreadPool :=
  mkPool (stop p) (maxRecursion p) (threadNumber p) (mtx p) (taskQueue p)
         (workers p) (RecursionMap p) s (locals p).
Definition set_locals (l : list (option packaged_task)) (p : ThreadPool)
    : ThreadPool :=
  mkPool (stop p) (maxRecursion p) (threadNumber p) (mtx p) (taskQueue p)
         (workers p) (RecursionMap p) (shared p) l.

(** [unsigned int] arithmetic wraps around modulo [2^32]. *)
Definition UINT_MODULUS : Z := 2 ^ 32.
Definition wrap (x : Z) : Z := x mod UINT_MODULUS.

(** [struct comparePriority]. *)
Definition comparePriority (p1 p2 : Z * closure) : bool :=
  p1.1 <? p2.1.

(** ** How a call ends *)

(** A call returns a value, exits by an exception, blocks for ever on the
    mutex, has undefined behaviour, or has not ended within the number of
    nested calls the evaluation was given. *)
Inductive result (A : Type) : Type :=
| Ok (a : A) (p : ThreadPool)
| Raised (e : exn) (p : ThreadPool)
| Deadlock
| Undefined
| OutOfFuel.
Arguments Ok {A} a p.
Arguments Raised {A} e p.
Arguments Deadlock {A}.
Arguments Undefined {A}.
Arguments OutOfFuel {A}.

Definition bind {A B : Type} (r : result A) (k : A → ThreadPool → result B)
    : result B :=
  match r with
  | Ok a p => k a p
  | Raised e p => Raised e p
  | Deadlock => Deadlock
  | Undefined => Undefined
  | OutOfFuel => OutOfFuel
  end.

(** ** Primitive operations on the members *)

(** [std::mutex::lock]: the only thread of the model would wait for ever
    for a mutex that is owned. *)
Definition lock (tid : thread_id) (p : ThreadPool) : result unit :=
  match mtx p with
  | None => Ok () (set_mtx (Some tid) p)
  | Some _ => Deadlock
  end.

Definition unlock (p : ThreadPool) : ThreadPool := set_mtx None p.

(** [RecursionMap[id]]: [operator[]] inserts a zero counter for a key that
    is absent. *)
Definition touch (id : thread_id) (p : ThreadPool) : ThreadPool :=
  match RecursionMap p !! id with
  | Some _ => p
  | None => set_RecursionMap (<[id := 0]> (RecursionMap p)) p
  end.

(** The value read through [RecursionMap[id]]. *)
Definition counter (id : thread_id) (p : ThreadPool) : Z :=
  default 0 (RecursionMap p !! id).

(** [RecursionMap[id]++] and [RecursionMap[id]--]. *)
Definition increment (id : thread_id) (p : ThreadPool) : ThreadPool :=
  set_RecursionMap (<[id := wrap (counter id p + 1)]> (RecursionMap p)) p.
Definition decrement (id : thread_id) (p : ThreadPool) : ThreadPool :=
  set_RecursionMap (<[id := wrap (counter id p - 1)]> (RecursionMap p)) p.

(** A new shared state (of a [std::packaged_task] or a [std::promise]). *)
Definition make_shared_state (p : ThreadPool) : nat * ThreadPool :=
  (length (shared p), set_shared (shared p ++ [Pending]) p).

(** The shared state is made ready with an outcome. *)
Definition make_ready (c : nat) (o : outcome) (p : ThreadPool) : ThreadPool :=
  set_shared (<[c := Ready o]> (shared p)) p.

(** [fut.wait_for(0s) == std::future_status::ready]; undefined ([None]) for
    a future without shared state. *)
Definition is_ready (fut : future) (p : ThreadPool) : option bool :=
  match fut with
  | NoState => None
  | SharedState c =>
      match shared p !! c with
      | Some Pending => Some false
      | Some (Ready _) => Some true
      | Some Retrieved | None => None
      end
  end.

(** [fut.get()] on a ready future: the value is returned or the stored
    exception rethrown, and the future gives up its shared state. *)
Definition get (fut : future) (p : ThreadPool) : result Z :=
  match fut with
  | NoState => Undefined
  | SharedState c =>
      match shared p !! c with
      | Some (Ready (Value v)) => Ok v (set_shared (<[c := Retrieved]> (shared p)) p)
      | Some (Ready (Failure e)) => Raised e (set_shared (<[c := Retrieved]> (shared p)) p)
      | _ => Undefined
      end
  end.

(** What [std::future::get] throws when the packaged task of the future
    was destroyed before it was called. *)
Definition broken_promise : exn :=
  Exception "std::future_error: Broken promise".

(** [std::shared_ptr<std::packaged_task<ReturnType()>> pFunc]: the local
    variable of a new activation, at the address that is returned; it
    owns the packaged task [t]. *)
Definition declare_pFunc (t : packaged_task) (p : ThreadPool)
    : nat * ThreadPool :=
  (length (locals p), set_locals (locals p ++ [Some t]) p).

(** The end of the scope of the variable [pFunc] at address [a], when
    [addTask] returns: the shared pointer is destroyed, and the packaged
    task with it, as no other pointer owns it.  The destructor of a
    packaged task that has not been called stores
    [std::future_error(broken_promise)] in its shared state and makes it
    ready. *)
Definition end_of_scope (a : nat) (p : ThreadPool) : ThreadPool :=
  match locals p !! a with
  | Some (Some t) =>
      let p := set_locals (<[a := None]> (locals p)) p in
      match shared p !! promise t with
      | Some Pending => make_ready (promise t) (Failure broken_promise) p
      | _ => p
      end
  | _ => p
  end.

(** The call [task()] of a closure taken from the queue, that is
    [[*pFunc]()] through the captured reference.  When the variable
    [pFunc] referred to is gone, the reference dangles and the call has
    undefined behaviour.  Otherwise the packaged task runs its callable
    and stores what it returned or threw in its shared state, and nothing
    is thrown to the caller; [exec] is the evaluation of callables.  (A
    closure is pushed once and leaves the queue before it is called, so
    that a packaged task is called at most once.) *)
Definition invoke (exec : action → ThreadPool → result Z)
    (task : closure) (p : ThreadPool) : result unit :=
  match locals p !! pFunc task with
  | Some (Some t) =>
      match exec (boundFunc t) p with
      | Ok v p' => Ok () (make_ready (promise t) (Value v) p')
      | Raised e p' => Ok () (make_ready (promise t) (Failure e) p')
      | Deadlock => Deadlock
      | Undefined => Undefined
      | OutOfFuel => OutOfFuel
      end
  | Some None | None => Undefined
  end.

(** The destructor of the [std::unique_lock] of a loop iteration. *)
Definition release (owns_lock : bool) (p : ThreadPool) : ThreadPool :=
  if owns_lock then unlock p else p.

(** ** The member functions

    The functions below call each other; [fuel] bounds the depth of nested
    calls and is spent only where one of them calls another.  The
    thread that executes the call is [tid] ([std::this_thread::get_id()]).

    - [run] evaluates a callable;
    - [addTask] is [ThreadPool::addTask(int priority, F&& f, Args&&...)];
    - [waitForTask] is [ThreadPool::waitForTask];
    - [tryToWork] is [ThreadPool::tryToWork]; it is entered with the mutex
      owned through the caller's [std::unique_lock] and returns whether
      that lock still owns the mutex;
    - [workerLoop] is [ThreadPool::workerLoop].

    [cv.notify_all()] changes no member.  [cv.wait(lock)] gives the mutex
    up while it blocks and owns it again when it returns; as a condition
    variable may wake up spuriously, the wait returns. *)
Fixpoint run (fuel : nat) (tid : thread_id) (a : action) (p : ThreadPool)
    {struct fuel} : result Z :=
  match a with
  | Return v => Ok v p
  | Throw e => Raised e p
  | AddTask priority f k =>
      match fuel with
      | O => OutOfFuel
      | S n => bind (addTask n tid priority f p) (fun fut p => run n tid (k fut) p)
      end
  | WaitForTask fut k =>
      match fuel with
      | O => OutOfFuel
      | S n => bind (waitForTask n tid fut p) (fun v p => run n tid (k v) p)
      end
  end

with addTask (fuel : nat) (tid : thread_id) (priority : Z) (f : action)
    (p : ThreadPool) {struct fuel} : result future :=
  if stop p then Ok NoState p
  else
    let p := touch tid p in
    if counter tid p <? maxRecursion p then
      (* boundFunc; pFunc = std::make_shared<std::packaged_task>(boundFunc) *)
      let '(c, p) := make_shared_state p in
      let '(a, p) := declare_pFunc (mkTask c f) p in
      (* func = [&pFunc]...; result = pFunc->get_future() *)
      let func := mkClosure a in
      let result := SharedState c in
      (* std::lock_guard; taskQueue.emplace; cv.notify_all *)
      bind (lock tid p) (fun _ p =>
        let p := set_taskQueue
                   (stl_heap.emplace comparePriority (priority, func)
                                     (taskQueue p)) p in
        let p := unlock p in
        (* return result: func and pFunc go out of scope *)
        Ok result (end_of_scope a p))
    else
      (* std::promise<ReturnType> result; result.set_value(f(args...)) *)
      let '(c, p) := make_shared_state p in
      match fuel with
      | O => OutOfFuel
      | S n =>
          bind (run n tid f p) (fun v p =>
            Ok (SharedState c) (make_ready c (Value v) p))
      end

with waitForTask (fuel : nat) (tid : thread_id) (fut : future)
    (p : ThreadPool) {struct fuel} : result Z :=
  if stop p then Ok 0 p (* static_cast<T>(NULL) *)
  else
    bind (lock tid p) (fun _ p =>
      match is_ready fut p with
      | None => Undefined
      | Some true =>
          match get fut p with
          | Ok v p => Ok v (unlock p)
          | Raised e p => Raised e (unlock p)
          | r => r
          end
      | Some false =>
          match fuel with
          | O => OutOfFuel
          | S n =>
              bind (tryToWork n tid p) (fun owns_lock p =>
                waitForTask n tid fut (release owns_lock p))
          end
      end)

with tryToWork (fuel : nat) (tid : thread_id) (p : ThreadPool)
    {struct fuel} : result bool :=
  if stop p then Ok true p
  else if stl_heap.empty (taskQueue p) then Ok true p (* cv.wait(lock) *)
  else
    match stl_heap.top (taskQueue p) with
    | None => Undefined
    | Some (_, task) =>
        let p := set_taskQueue (stl_heap.pop comparePriority (taskQueue p)) p in
        let p := unlock p in
        let p := increment tid p in
        match fuel with
        | O => OutOfFuel
        | S n =>
            bind (invoke (run n tid) task p) (fun _ p =>
              let p := decrement tid p in
              (* std::lock_guard notifyLock; cv.notify_all *)
              bind (lock tid p) (fun _ p => Ok false (unlock p)))
        end
    end.

Fixpoint workerLoop (fuel : nat) (tid : thread_id) (p : ThreadPool)
    {struct fuel} : result unit :=
  if stop p then Ok () p
  else
    match fuel with
    | O => OutOfFuel
    | S n =>
        bind (lock tid p) (fun _ p =>
          bind (tryToWork n tid p) (fun owns_lock p =>
            workerLoop n tid (release owns_lock p)))
    end.

(** [ThreadPool::addTask(F&& f, Args&&...)]: priority zero. *)
Definition addTask_default (fuel : nat) (tid : thread_id) (f : action)
    (p : ThreadPool) : result future :=
  let priority := 0 in
  addTask fuel tid priority f p.

(** ** Construction and destruction *)

(** [std::unordered_map::emplace] keeps the value of a key that is
    present. *)
Definition map_emplace (id : thread_id) (d : Z) (m : gmap thread_id Z)
    : gmap thread_id Z :=
  match m !! id with
  | Some _ => m
  | None => <[id := d]> m
  end.

Section construction.
(** The environment of the constructor: what
    [std::thread::hardware_concurrency()] reports, the identity of the
    [i]-th thread that is created, and the constructing thread. *)
Variable hardware_concurrency : Z.
Variable get_id : nat → thread_id.
Variable this_thread : thread_id.

(** One iteration of the [for] loop of the constructor. *)
Definition spawn (p : ThreadPool) (i : nat) : ThreadPool :=
  let id := get_id i in
  mkPool (stop p) (maxRecursion p) (threadNumber p) (mtx p) (taskQueue p)
         (workers p ++ [id]) (map_emplace id 0 (RecursionMap p)) (shared p)
         (locals p).

(** [ThreadPool(unsigned int thread = hardware_concurrency(),
    unsigned int maxRecursionDepth = 5)]; an argument that is left out is
    [None].  [shared0] is the free store the pool is constructed in; no
    activation of [addTask] exists yet.  The threads that are created
    execute [workerLoop]. *)
Definition ThreadPool_new (thread maxRecursionDepth : option Z)
    (shared0 : list shared_state) : ThreadPool :=
  let thread := default hardware_concurrency thread in
  let maxRecursionDepth := default 5 maxRecursionDepth in
  let threadNumber := if thread =? 0 then hardware_concurrency else thread in
  let p :=
    mkPool false maxRecursionDepth threadNumber None [] [] ∅ shared0 [] in
  let p := foldl spawn p (seq 0 (Z.to_nat threadNumber)) in
  set_RecursionMap (map_emplace this_thread 0 (RecursionMap p)) p.
End construction.

(** [~ThreadPool()]: the flag is set and the workers are joined; each of
    them leaves [workerLoop] when it reads the flag. *)
Definition ThreadPool_delete (p : ThreadPool) : ThreadPool := set_stop true p.

(** ** Examples *)

Definition boom : exn := Exception "boom".

(** A pool of two workers (threads 1 and 2) made by thread 0, with
    [maxRecursionDepth = 1]. *)
Definition pool2 : ThreadPool :=
  ThreadPool_new 8 (fun i => S i) 0%nat (Some 2) (Some 1) [].

(** The same with [maxRecursionDepth = 0]: every submission is at the
    bound. *)
Definition pool_inline : ThreadPool :=
  ThreadPool_new 8 (fun i => S i) 0%nat (Some 2) (Some 0) [].

(** Thread 0 submits [Return 4] with priority 5 and [Return 7] with
    priority 1, waits for the first future and then for the second one. *)
Definition scenario : action :=
  AddTask 5 (Return 4) (fun a =>
  AddTask 1 (Return 7) (fun b =>
  WaitForTask a (fun x =>
  WaitForTask b (fun y => Return (10 * x + y))))).

(** Thread 0 submits three callables with priorities 1, 5 and 3 and goes
    on without waiting. *)
Definition submit3 : action :=
  AddTask 1 (Return 10) (fun _ =>
  AddTask 5 (Return 50) (fun _ =>
  AddTask 3 (Throw boom) (fun _ => Return 0))).

(** A callable that submits a callable and waits for it. *)
Definition nested : action :=
  AddTask 1 (Return 2) (fun fut => WaitForTask fut (fun x => Return (x + 5))).

(** The state a call ended in ([d] if it did not end). *)
Definition state_after {A} (r : result A) (d : ThreadPool) : ThreadPool :=
  match r with
  | Ok _ p | Raised _ p => p
  | _ => d
  end.

(** [pool2] with the three entries of [submit3] in the queue. *)
Definition pool3 : ThreadPool := state_after (run 5 0%nat submit3 pool2) pool2.

(** Thread 0 has submitted [Return 7] to [pool_inline], where the callable
    was executed in place: the future of thread 0 is complete. *)
Definition pool_done : ThreadPool :=
  state_after (addTask 1 0%nat 0 (Return 7) pool_inline) pool_inline.

(** ** Invariants and what a call leaves alone *)

(** The queue is a heap for the priorities. *)
Definition heap_ordered (q : list (Z * closure)) : Prop := is_heap fst q.

(** Every counter is an [unsigned int]. *)
Definition uint_counters (p : ThreadPool) : Prop :=
  map_Forall (λ _ d, 0 ≤ d < UINT_MODULUS) (RecursionMap p).

Global Instance uint_counters_dec p : Decision (uint_counters p).
Proof. unfold uint_counters. apply _. Defined.

(** What calls executed by thread [tid] leave alone: the flag, the
    configuration, the workers and the counters of the other threads; no
    shared state is freed, and the invariants above are kept. *)
Definition frame (tid : thread_id) (p p' : ThreadPool) : Prop :=
  stop p' = stop p ∧ maxRecursion p' = maxRecursion p
  ∧ threadNumber p' = threadNumber p ∧ workers p' = workers p
  ∧ (∀ t, t ≠ tid → RecursionMap p' !! t = RecursionMap p !! t)
  ∧ (length (shared p) ≤ length (shared p'))%nat
  ∧ (heap_ordered (taskQueue p) → heap_ordered (taskQueue p'))
  ∧ (uint_counters p → uint_counters p').

(** [ensures D Q r]: if the call ended, by a return or by an exception,
    the final state satisfies [Q] (with the value that was returned, if
    any); [D] is what is claimed of a call that blocks on the mutex. *)
Definition ensures {A : Type} (D : Prop) (Q : option A → ThreadPool → Prop)
    (r : result A) : Prop :=
  match r with
  | Ok a p => Q (Some a) p
  | Raised _ p => Q None p
  | Deadlock => D
  | Undefined | OutOfFuel => True
  end.

(** The entries taken by [n] successive removals from the store, in the
    order in which they are taken. *)
Fixpoint drain (n : nat) (q : list (Z * closure))
    : list (Z * closure) :=
  match n with
  | O => []
  | S n' =>
      match stl_heap.top q with
      | None => []
      | Some e => e :: drain n' (stl_heap.pop comparePriority q)
      end
  end.

(** What a call keeps: the frame, and the counter of the executing
    thread. *)
Definition kept (tid : thread_id) (p p' : ThreadPool) : Prop :=
  frame tid p p' ∧ counter tid p' = counter tid p.

(** The counter of [tid] has reached [maxRecursion] and cannot wrap around
    within [fuel] nested calls; the invariants hold. *)
Definition at_bound (fuel : nat) (tid : thread_id) (p : ThreadPool) : Prop :=
  uint_counters p ∧ heap_ordered (taskQueue p)
  ∧ maxRecursion p ≤ counter tid p
  ∧ counter tid p + Z.of_nat fuel < UINT_MODULUS.

(** How a callable ended, if it did. *)
Definition finished (r : result Z) : option (outcome * ThreadPool) :=
  match r with
  | Ok v p => Some (Value v, p)
  | Raised e p => Some (Failure e, p)
  | _ => None
  end.

(** ** Further definitions *)

(** How [waitForTask] ends on a future that holds [o]. *)
Definition deliver (o : outcome) (p : ThreadPool) : result Z :=
  match o with
  | Value v => Ok v p
  | Failure e => Raised e p
  end.

(** [pool2] with one shared state that no entry of the store will
    complete (the future of a promise made outside the pool). *)
Definition pool_empty : ThreadPool := (make_shared_state pool2).2.

(** What holds of the pool between the calls of its users: the mutex is
    free, the store is a heap and the counters are [unsigned int]. *)
Definition invariant (p : ThreadPool) : Prop :=
  mtx p = None ∧ heap_ordered (taskQueue p) ∧ uint_counters p.

(** Every activation of the queued branch of [addTask] has returned: no
    variable [pFunc] is left.  This holds whenever no thread is inside
    [addTask]. *)
Definition out_of_scope (p : ThreadPool) : Prop :=
  Forall (λ l, l = None) (locals p).

(** Thread 0 has submitted [Return 4] with priority 5 to [pool2]. *)
Definition pool1 : ThreadPool :=
  state_after (addTask 0 0%nat 5 (Return 4) pool2) pool2.

(** A callable that submits a callable and then throws. *)
Definition submit_then_throw : action :=
  AddTask 2 (Return 1) (fun _ => Throw boom).

(** * Properties

    ** The heap algorithms keep a heap

    The comparison is the order of a key: [comp a b] holds when the key of
    [a] is less than the key of [b], as [comparePriority] does with the
    priority. *)

Section heap_facts.
Local Open Scope nat_scope.
Context {T : Type} (key : T → Z) (comp : T → T → bool).
Hypothesis comp_key : ∀ a b, comp a b = (key a <? key b)%Z.

Lemma insert_cons_swap (c : list T) (h : nat) (a v : T) :
  h < length c → a :: <[h := v]> c ≡ₚ v :: <[h := a]> c.
Proof.
  intros Hh. rewrite !insert_take_drop by done.
  rewrite <-!Permutation_middle. apply perm_swap.
Qed.

(** An element moved into the hole, its place becoming the hole: once the
    hole is filled the sequence has the same elements. *)
Lemma insert_insert_swap (c : list T) (p h : nat) (x v : T) :
  c !! p = Some x → h < length c → p ≠ h →
  <[p := v]> (<[h := x]> c) ≡ₚ <[h := v]> c.
Proof.
  revert p h. induction c as [|a c IH]; intros p h Hp Hh Hne; [done|].
  destruct p as [|p], h as [|h]; simpl in *; try done.
  - injection Hp as ->. apply insert_cons_swap. lia.
  - rewrite insert_cons_swap by (by eapply lookup_lt_Some).
    by rewrite (list_insert_id c p x).
  - constructor. apply IH; [done|lia|lia].
Qed.

Lemma push_heap_loop_length n (c : list T) h top v :
  length (stl_heap.push_heap_loop comp n c h top v) = length c.
Proof.
  revert c h. induction n as [|n IH]; intros c h; cbn [stl_heap.push_heap_loop].
  - by rewrite length_insert.
  - repeat case_match; rewrite ?IH, ?length_insert; done.
Qed.

(** Sifting up fills the hole and moves the other elements around. *)
Lemma push_heap_loop_perm n (c : list T) h v :
  h ≤ n → h < length c →
  stl_heap.push_heap_loop comp n c h 0 v ≡ₚ <[h := v]> c.
Proof.
  revert c h. induction n as [|n IH]; intros c h Hn Hh;
    cbn [stl_heap.push_heap_loop].
  - done.
  - destruct (c !! _) as [x|] eqn:Hx; [|done].
    destruct (bool_decide _ && _) eqn:Hc; [|done].
    apply andb_prop in Hc as [Hlt%bool_decide_eq_true _].
    rewrite IH by (rewrite ?length_insert; lia).
    apply insert_insert_swap; [done|done|lia].
Qed.

(** Sifting up leaves the positions after the hole alone. *)
Lemma push_heap_loop_above n (c : list T) h v i :
  h < i → stl_heap.push_heap_loop comp n c h 0 v !! i = c !! i.
Proof.
  revert c h. induction n as [|n IH]; intros c h Hi;
    cbn [stl_heap.push_heap_loop].
  - by rewrite list_lookup_insert_ne by lia.
  - repeat case_match; rewrite ?IH by lia; by rewrite list_lookup_insert_ne by lia.
Qed.

Lemma parent_lt i : 0 < i → parent i < i.
Proof. unfold parent. lia. Qed.

(** The hole is filled with [v]: the sequence is a heap if the elements
    under the hole are not above [v] and [v] is not above the element over
    the hole. *)
Lemma fill_hole len (c : list T) h v :
  h < length c →
  hole_heap key len c h → above_children key len c h v →
  (h = 0 ∨ ∃ y, c !! parent h = Some y ∧ (key v ≤ key y)%Z) →
  is_heap_until key len (<[h := v]> c).
Proof.
  intros Hh [H1 H2] H3 Htop i x y Hi Hx Hy.
  pose proof (parent_lt i ltac:(lia)) as Hpi.
  destruct (decide (i = h)) as [->|Hne].
  - rewrite list_lookup_insert_eq in Hx by done.
    rewrite list_lookup_insert_ne in Hy by lia.
    destruct Htop as [->|(y' & Hy' & Hle)]; [lia|]. by simplify_eq.
  - rewrite list_lookup_insert_ne in Hx by done.
    destruct (decide (parent i = h)) as [Hp|Hp].
    + rewrite Hp, list_lookup_insert_eq in Hy by done.
      injection Hy as <-. eauto.
    + rewrite list_lookup_insert_ne in Hy by done. eauto.
Qed.

(** One iteration of sifting up. *)
Lemma hole_heap_up len (c : list T) h x v :
  0 < h → h < len → h < length c → c !! parent h = Some x →
  (key x < key v)%Z → hole_heap key len c h →
  hole_heap key len (<[h := x]> c) (parent h)
  ∧ above_children key len (<[h := x]> c) (parent h) v.
Proof.
  intros H0 Hhl Hh Hx Hlt [H1 H2].
  pose proof (parent_lt h H0) as Hph.
  assert (Hkid : ∀ i z, 0 < i < len → parent i = parent h →
            <[h := x]> c !! i = Some z → (key z ≤ key x)%Z).
  { intros i z Hi Hp Hz. destruct (decide (i = h)) as [->|Hne].
    - rewrite list_lookup_insert_eq in Hz by done. by injection Hz as <-.
    - rewrite list_lookup_insert_ne in Hz by done.
      eapply (H1 i); eauto; [lia|]. by rewrite Hp. }
  split; [split|].
  - intros i a b Hi Hne Hpne Ha Hb.
    pose proof (parent_lt i ltac:(lia)) as Hpi.
    assert (i ≠ h) by (intros ->; done).
    rewrite list_lookup_insert_ne in Ha by done.
    destruct (decide (parent i = h)) as [Hp|Hp].
    + rewrite Hp, list_lookup_insert_eq in Hb by done. injection Hb as <-.
      eapply (H2 i); eauto.
    + rewrite list_lookup_insert_ne in Hb by done. eauto.
  - intros i a b Hi Hp Hpos Ha Hb.
    pose proof (parent_lt (parent h) Hpos) as Hpp.
    rewrite list_lookup_insert_ne in Hb by lia.
    etrans; [by eapply Hkid|].
    eapply (H1 (parent h)); eauto; lia.
  - intros i a Hi Hp Ha. specialize (Hkid i a Hi Hp Ha). lia.
Qed.

(** Sifting [v] up from a hole under which nothing is above [v] gives a
    heap. *)
Lemma push_heap_loop_heap n len (c : list T) h v :
  h ≤ n → h < len → len ≤ length c →
  hole_heap key len c h → above_children key len c h v →
  is_heap_until key len (stl_heap.push_heap_loop comp n c h 0 v).
Proof.
  revert c h. induction n as [|n IH]; intros c h Hn Hh Hlen Hhole Habove;
    cbn [stl_heap.push_heap_loop].
  - apply fill_hole; auto with lia.
  - fold (parent h).
    destruct (c !! parent h) as [x|] eqn:Hx; [|apply fill_hole; auto with lia].
    2:{ apply lookup_ge_None_1 in Hx. unfold parent in Hx. lia. }
    rewrite comp_key.
    destruct (bool_decide _ && _) eqn:Hc.
    + apply andb_prop in Hc as [Hlt%bool_decide_eq_true Hk%Z.ltb_lt].
      pose proof (parent_lt h Hlt).
      destruct (hole_heap_up len c h x v) as [??]; [done|done|lia|done..|].
      apply IH; rewrite ?length_insert; auto with lia.
    + apply fill_hole; [lia|done..|].
      apply andb_false_iff in Hc as [Hc%bool_decide_eq_false|Hc%Z.ltb_ge];
        [left; lia|right; eauto].
Qed.

(** One iteration of sifting down: the greater child moves into the hole. *)
Lemma hole_heap_down len (c : list T) h s x :
  h < len → len ≤ length c → s < len → parent s = h → 0 < s →
  c !! s = Some x →
  (∀ i z, 0 < i < len → parent i = h → c !! i = Some z → (key z ≤ key x)%Z) →
  hole_heap key len c h → hole_heap key len (<[h := x]> c) s.
Proof.
  intros Hh Hlen Hs Hps H0 Hx Hmax [H1 H2].
  pose proof (parent_lt s H0) as Hsh. split.
  - intros i a b Hi Hne Hpne Ha Hb.
    pose proof (parent_lt i ltac:(lia)) as Hpi.
    destruct (decide (i = h)) as [->|Hih].
    + rewrite list_lookup_insert_eq in Ha by lia. injection Ha as <-.
      rewrite list_lookup_insert_ne in Hb by lia.
      eapply (H2 s); eauto; lia.
    + rewrite list_lookup_insert_ne in Ha by done.
      destruct (decide (parent i = h)) as [Hp|Hp].
      * rewrite Hp, list_lookup_insert_eq in Hb by lia. injection Hb as <-.
        eauto.
      * rewrite list_lookup_insert_ne in Hb by done. eauto.
  - intros i a b Hi Hp _ Ha Hb.
    pose proof (parent_lt i ltac:(lia)) as Hpi.
    rewrite Hps, list_lookup_insert_eq in Hb by lia. injection Hb as <-.
    rewrite list_lookup_insert_ne in Ha by lia.
    eapply (H1 i); eauto; [lia|lia|]. by rewrite Hp.
Qed.

(** The hole descends until it has at most one child. *)
Lemma adjust_heap_loop_spec n len (c : list T) h :
  len ≤ n + h → h < len → len ≤ length c → hole_heap key len c h →
  ∃ c' h', stl_heap.adjust_heap_loop comp n c h h len = (c', h', h')
    ∧ h' < len ∧ length c' = length c ∧ hole_heap key len c' h'
    ∧ ¬ h' < (len - 1) / 2
    ∧ (∀ v, <[h' := v]> c' ≡ₚ <[h := v]> c)
    ∧ (∀ i, len ≤ i → c' !! i = c !! i).
Proof.
  revert c h. induction n as [|n IH]; intros c h Hn Hh Hlen Hhole;
    cbn [stl_heap.adjust_heap_loop].
  { exists c, h. split_and!; auto with lia. }
  case_bool_decide as Hlt; [|exists c, h; split_and!; auto with lia].
  destruct (lookup_lt_is_Some_2 c (2 * (h + 1))) as [a Ha]; [lia|].
  destruct (lookup_lt_is_Some_2 c (2 * (h + 1) - 1)) as [b Hb]; [lia|].
  rewrite Ha, Hb, comp_key.
  set (s := if (key a <? key b)%Z then 2 * (h + 1) - 1 else 2 * (h + 1)).
  assert (∃ x, c !! s = Some x ∧ (key a ≤ key x)%Z ∧ (key b ≤ key x)%Z
               ∧ (s = 2 * h + 1 ∨ s = 2 * h + 2)) as (x & Hx & Hax & Hbx & Hs).
  { subst s. destruct (Z.ltb_spec (key a) (key b)); eauto 10 with lia. }
  clearbody s. rewrite Hx.
  assert (parent s = h) as Hps by (unfold parent; lia).
  destruct (IH (<[h := x]> c) s) as (c' & h' & -> & ? & Hl' & ? & ? & Hperm & Hout).
  - lia.
  - lia.
  - rewrite length_insert. lia.
  - apply hole_heap_down; auto with lia.
    intros i z Hi Hp Hz. unfold parent in Hp.
    assert (i = 2 * (h + 1) ∨ i = 2 * (h + 1) - 1) as [->| ->] by lia;
      by simplify_eq.
  - exists c', h'. rewrite length_insert in Hl'. split_and!; auto.
    + intros v. rewrite Hperm. apply insert_insert_swap; auto with lia.
    + intros i Hi. rewrite Hout by done. apply list_lookup_insert_ne. lia.
Qed.

Lemma no_children len (c : list T) h v :
  len ≤ 2 * h + 1 → above_children key len c h v.
Proof. intros Hh i x Hi Hp. unfold parent in Hp. lia. Qed.

Lemma is_heap_until_hole len (c : list T) :
  is_heap_until key len c → hole_heap key len c 0.
Proof. intros H. split; [|lia]. intros i x y ? _ _. by apply H. Qed.

(** [std::__adjust_heap] from the root: [value] is placed into the heap
    of the first [len] positions, the positions after them are left alone. *)
Lemma adjust_heap_spec len (c : list T) value :
  0 < len → len ≤ length c → is_heap_until key len c →
  let r := stl_heap.__adjust_heap comp c 0 len value in
  is_heap_until key len r ∧ r ≡ₚ <[0 := value]> c
  ∧ length r = length c ∧ (∀ i, len ≤ i → r !! i = c !! i).
Proof.
  intros H0 Hlen Hheap. unfold stl_heap.__adjust_heap.
  destruct (adjust_heap_loop_spec len len c 0)
    as (c' & h' & -> & Hh' & Hl' & Hhole & Hend & Hperm & Hout);
    [lia|lia|done|by apply is_heap_until_hole|].
  destruct (Nat.even len && bool_decide (h' = (len - 2) / 2)) eqn:Heven.
  - apply andb_prop in Heven as [[m ->]%Nat.even_spec ->%bool_decide_eq_true].
    replace (2 * ((2 * m - 2) / 2 + 1) - 1) with (2 * m - 1) by lia.
    set (h := (2 * m - 2) / 2) in *.
    destruct (lookup_lt_is_Some_2 c' (2 * m - 1)) as [x Hx]; [lia|].
    rewrite Hx. unfold stl_heap.__push_heap. split_and!.
    + apply push_heap_loop_heap; rewrite ?length_insert; auto with lia.
      * apply hole_heap_down; auto with lia.
        { unfold parent. lia. }
        intros i z Hi Hp Hz. unfold parent in Hp.
        assert (i = 2 * m - 1) as -> by lia. by simplify_eq.
      * apply no_children. lia.
    + rewrite push_heap_loop_perm by (rewrite ?length_insert; lia).
      rewrite <-Hperm. apply insert_insert_swap; auto with lia.
    + by rewrite push_heap_loop_length, length_insert.
    + intros i Hi. rewrite push_heap_loop_above by lia.
      rewrite list_lookup_insert_ne by lia. auto.
  - assert (len ≤ 2 * h' + 1) as Hleaf.
    { apply andb_false_iff in Heven as [Hodd|Hne%bool_decide_eq_false].
      - apply (f_equal negb) in Hodd. rewrite Nat.negb_even in Hodd.
        apply Nat.odd_spec in Hodd as [m ->]. lia.
      - lia. }
    unfold stl_heap.__push_heap. split_and!.
    + apply push_heap_loop_heap; auto with lia. by apply no_children.
    + by rewrite push_heap_loop_perm by lia.
    + by rewrite push_heap_loop_length.
    + intros i Hi. rewrite push_heap_loop_above by lia. auto.
Qed.

Lemma is_heap_until_take len (c : list T) :
  is_heap_until key len c → is_heap key (take len c).
Proof.
  intros H i x y Hi Hx Hy. rewrite length_take in Hi.
  pose proof (parent_lt i ltac:(lia)).
  rewrite lookup_take_lt in Hx, Hy by lia. eapply (H i); eauto; lia.
Qed.

(** [pop] removes the first element and keeps a heap. *)
Lemma pop_spec (c : list T) first :
  is_heap key c → c !! 0 = Some first →
  is_heap key (stl_heap.pop comp c) ∧ c ≡ₚ first :: stl_heap.pop comp c.
Proof.
  intros Hheap Hfirst. unfold stl_heap.pop, stl_heap.pop_heap.
  pose proof (lookup_lt_Some _ _ _ Hfirst) as Hlen.
  case_bool_decide as Hlong.
  2:{ destruct c as [|a [|??]]; simpl in *; try lia. simplify_eq.
      split; [|done]. intros i ?? Hi. simpl in Hi. lia. }
  set (last := length c - 1).
  assert (last = length c - 1) as Hlast by done. clearbody last.
  destruct (lookup_lt_is_Some_2 c last) as [value Hvalue]; [lia|].
  rewrite Hvalue, Hfirst.
  destruct (adjust_heap_spec last (<[last := first]> c) value)
    as (Hr & Hperm & Hlr & Hout); [lia|rewrite length_insert; lia| |].
  { intros i x y Hi Hx Hy. pose proof (parent_lt i ltac:(lia)).
    rewrite list_lookup_insert_ne in Hx, Hy by lia.
    eapply (Hheap i); eauto; lia. }
  set (r := stl_heap.__adjust_heap _ _ _ _ _) in *.
  rewrite length_insert in Hlr. rewrite Hlr, <-Hlast.
  split; [by apply is_heap_until_take|].
  assert (r !! last = Some first) as Hrl.
  { rewrite Hout by done. apply list_lookup_insert_eq. lia. }
  rewrite <-(take_drop_middle r last first Hrl) in Hperm.
  rewrite drop_ge in Hperm by lia.
  rewrite Permutation_cons_append, Hperm.
  rewrite insert_insert_swap; [by rewrite list_insert_id|done|lia|lia].
Qed.

(** [emplace] adds its argument and keeps a heap. *)
Lemma emplace_spec (c : list T) x :
  is_heap key c →
  is_heap key (stl_heap.emplace comp x c) ∧ stl_heap.emplace comp x c ≡ₚ x :: c.
Proof.
  intros Hheap. unfold stl_heap.emplace, stl_heap.push_heap.
  rewrite length_app, Nat.add_1_r, Nat.sub_1_r. cbn [Nat.pred length].
  rewrite list_lookup_middle by done. unfold stl_heap.__push_heap.
  split.
  - unfold is_heap. rewrite push_heap_loop_length, length_app, Nat.add_1_r.
    apply push_heap_loop_heap; rewrite ?length_app; simpl; auto with lia.
    + split.
      * intros i a b Hi Hne Hpne Ha Hb. pose proof (parent_lt i ltac:(lia)).
        rewrite lookup_app_l in Ha, Hb by lia. eapply (Hheap i); eauto; lia.
      * intros i a b Hi Hp. pose proof (parent_lt i ltac:(lia)). lia.
    + apply no_children. lia.
  - rewrite push_heap_loop_perm by (rewrite ?length_app; simpl; lia).
    rewrite list_insert_id by (by apply list_lookup_middle).
    by rewrite <-Permutation_cons_append.
Qed.

(** Pushing adds the element and nothing else, whatever the sequence. *)
Lemma emplace_perm (c : list T) x : stl_heap.emplace comp x c ≡ₚ x :: c.
Proof.
  unfold stl_heap.emplace, stl_heap.push_heap.
  rewrite length_app, Nat.add_1_r, Nat.sub_1_r. cbn [Nat.pred length].
  rewrite list_lookup_middle by done. unfold stl_heap.__push_heap.
  rewrite push_heap_loop_perm by (rewrite ?length_app; simpl; lia).
  rewrite list_insert_id by (by apply list_lookup_middle).
  by rewrite <-Permutation_cons_append.
Qed.

(** Sifting up stops below a first element that does not compare less
    than the value: the first element stays where it is. *)
Lemma push_heap_loop_first n (c : list T) h v first :
  c !! 0 = Some first → 0 < h → comp first v = false →
  stl_heap.push_heap_loop comp n c h 0 v !! 0 = Some first.
Proof.
  revert c h. induction n as [|n IH]; intros c h Hfirst Hh Hcmp;
    cbn [stl_heap.push_heap_loop].
  - by rewrite list_lookup_insert_ne by lia.
  - destruct (c !! ((h - 1) / 2)) as [x|] eqn:Hx;
      [|by rewrite list_lookup_insert_ne by lia].
    destruct (bool_decide _ && _) eqn:Hc;
      [|by rewrite list_lookup_insert_ne by lia].
    apply andb_prop in Hc as [_ Hlt].
    destruct (decide ((h - 1) / 2 = 0)) as [Hp|Hp].
    + rewrite Hp, Hfirst in Hx. injection Hx as <-. congruence.
    + apply IH; [by rewrite list_lookup_insert_ne by lia|lia|done].
Qed.

Lemma emplace_first (c : list T) x first :
  stl_heap.top c = Some first → comp first x = false →
  stl_heap.top (stl_heap.emplace comp x c) = Some first.
Proof.
  intros Hfirst Hcmp. unfold stl_heap.top in *.
  assert (0 < length c) as Hlen by (destruct c; simpl; [done|lia]).
  unfold stl_heap.emplace, stl_heap.push_heap.
  rewrite length_app, Nat.add_1_r, Nat.sub_1_r. cbn [Nat.pred length].
  rewrite list_lookup_middle by done. unfold stl_heap.__push_heap.
  apply push_heap_loop_first; [|done|done].
  by rewrite lookup_app_l.
Qed.

(** The first element of a heap has the greatest key. *)
Lemma top_greatest (c : list T) first x :
  is_heap key c → c !! 0 = Some first → x ∈ c → (key x ≤ key first)%Z.
Proof.
  intros Hheap Hfirst [i Hi]%list_elem_of_lookup. revert x Hi.
  induction (lt_wf i) as [i _ IH]. intros x Hi.
  destruct (decide (i = 0)) as [->|Hne]; [by simplify_eq|].
  pose proof (parent_lt i ltac:(lia)) as Hp.
  pose proof (lookup_lt_Some _ _ _ Hi).
  destruct (lookup_lt_is_Some_2 c (parent i)) as [y Hy]; [lia|].
  etrans; [|by eapply (IH (parent i))]. eapply (Hheap i); eauto; lia.
Qed.

Lemma is_heapb_correct (c : list T) : is_heapb key c = true → is_heap key c.
Proof.
  unfold is_heapb. rewrite forallb_forall. intros H i x y Hi Hx Hy.
  specialize (H i). rewrite Hx, Hy in H.
  eapply bool_decide_eq_true_1, H, in_seq. lia.
Qed.
End heap_facts.

(** ** The queue of the pool *)

Lemma comparePriority_key a b : comparePriority a b = (a.1 <? b.1).
Proof. reflexivity. Qed.

Lemma heap_ordered_nil : heap_ordered [].
Proof. intros i x y Hi. simpl in Hi. lia. Qed.

Lemma heap_ordered_emplace e q :
  heap_ordered q →
  heap_ordered (stl_heap.emplace comparePriority e q)
  ∧ stl_heap.emplace comparePriority e q ≡ₚ e :: q.
Proof. apply emplace_spec, comparePriority_key. Qed.

Lemma heap_ordered_pop e q :
  heap_ordered q → stl_heap.top q = Some e →
  heap_ordered (stl_heap.pop comparePriority q)
  ∧ q ≡ₚ e :: stl_heap.pop comparePriority q.
Proof. apply pop_spec, comparePriority_key. Qed.

Lemma heap_ordered_top e q x :
  heap_ordered q → stl_heap.top q = Some e → x ∈ q → x.1 ≤ e.1.
Proof. apply top_greatest. Qed.

Lemma top_nonempty {T} (q : list T) :
  stl_heap.empty q = false → ∃ e, stl_heap.top q = Some e.
Proof.
  unfold stl_heap.empty, stl_heap.top. intros Hq%bool_decide_eq_false.
  destruct q; [done|]. eauto.
Qed.

Lemma drain_elem n q x : heap_ordered q → x ∈ drain n q → x ∈ q.
Proof.
  revert q. induction n as [|n IH]; intros q Hq; simpl; [by intros ?%elem_of_nil|].
  destruct (stl_heap.top q) as [e|] eqn:Htop; [|by intros ?%elem_of_nil].
  destruct (heap_ordered_pop _ _ Hq Htop) as [Hq' Hperm].
  rewrite Hperm at 2. intros [->|Hx]%elem_of_cons; [left|right]. by apply IH.
Qed.

(** Successive removals come in the order of the priorities, greatest
    first. *)
Lemma drain_sorted n q :
  heap_ordered q → StronglySorted (λ a b, b.1 ≤ a.1) (drain n q).
Proof.
  revert q. induction n as [|n IH]; intros q Hq; simpl; [constructor|].
  destruct (stl_heap.top q) as [e|] eqn:Htop; [|constructor].
  destruct (heap_ordered_pop _ _ Hq Htop) as [Hq' Hperm].
  constructor; [by apply IH|]. apply Forall_forall. intros x Hx.
  apply (heap_ordered_top _ _ _ Hq Htop).
  rewrite Hperm. right. by eapply drain_elem.
Qed.

(** Every entry is removed in the end. *)
Lemma drain_all n q :
  heap_ordered q → (length q ≤ n)%nat → drain n q ≡ₚ q.
Proof.
  revert q. induction n as [|n IH]; intros q Hq Hn; simpl.
  - destruct q; [done|simpl in Hn; lia].
  - destruct (stl_heap.top q) as [e|] eqn:Htop.
    + destruct (heap_ordered_pop _ _ Hq Htop) as [Hq' Hperm].
      rewrite Hperm at 2. constructor. apply IH; [done|].
      apply Permutation_length in Hperm. simpl in Hperm. lia.
    + unfold stl_heap.top in Htop. by destruct q.
Qed.

(** ** One step of each member function *)

Lemma run_eq fuel tid a p :
  run fuel tid a p =
  match a with
  | Return v => Ok v p
  | Throw e => Raised e p
  | AddTask priority f k =>
      match fuel with
      | O => OutOfFuel
      | S n => bind (addTask n tid priority f p) (fun fut p => run n tid (k fut) p)
      end
  | WaitForTask fut k =>
      match fuel with
      | O => OutOfFuel
      | S n => bind (waitForTask n tid fut p) (fun v p => run n tid (k v) p)
      end
  end.
Proof. destruct fuel; reflexivity. Qed.

Lemma addTask_eq fuel tid priority f p :
  addTask fuel tid priority f p =
  if stop p then Ok NoState p
  else
    let p := touch tid p in
    if counter tid p <? maxRecursion p then
      let '(c, p) := make_shared_state p in
      let '(a, p) := declare_pFunc (mkTask c f) p in
      bind (lock tid p) (fun _ p =>
        let p := set_taskQueue
                   (stl_heap.emplace comparePriority (priority, mkClosure a)
                                     (taskQueue p)) p in
        Ok (SharedState c) (end_of_scope a (unlock p)))
    else
      let '(c, p) := make_shared_state p in
      match fuel with
      | O => OutOfFuel
      | S n =>
          bind (run n tid f p) (fun v p =>
            Ok (SharedState c) (make_ready c (Value v) p))
      end.
Proof. destruct fuel; reflexivity. Qed.

Lemma waitForTask_eq fuel tid fut p :
  waitForTask fuel tid fut p =
  if stop p then Ok 0 p
  else
    bind (lock tid p) (fun _ p =>
      match is_ready fut p with
      | None => Undefined
      | Some true =>
          match get fut p with
          | Ok v p => Ok v (unlock p)
          | Raised e p => Raised e (unlock p)
          | r => r
          end
      | Some false =>
          match fuel with
          | O => OutOfFuel
          | S n =>
              bind (tryToWork n tid p) (fun owns_lock p =>
                waitForTask n tid fut (release owns_lock p))
          end
      end).
Proof. destruct fuel; reflexivity. Qed.

Lemma tryToWork_eq fuel tid p :
  tryToWork fuel tid p =
  if stop p then Ok true p
  else if stl_heap.empty (taskQueue p) then Ok true p
  else
    match stl_heap.top (taskQueue p) with
    | None => Undefined
    | Some (_, task) =>
        let p := set_taskQueue (stl_heap.pop comparePriority (taskQueue p)) p in
        let p := unlock p in
        let p := increment tid p in
        match fuel with
        | O => OutOfFuel
        | S n =>
            bind (invoke (run n tid) task p) (fun _ p =>
              let p := decrement tid p in
              bind (lock tid p) (fun _ p => Ok false (unlock p)))
        end
    end.
Proof. destruct fuel; reflexivity. Qed.

Lemma workerLoop_eq fuel tid p :
  workerLoop fuel tid p =
  if stop p then Ok () p
  else
    match fuel with
    | O => OutOfFuel
    | S n =>
        bind (lock tid p) (fun _ p =>
          bind (tryToWork n tid p) (fun owns_lock p =>
            workerLoop n tid (release owns_lock p)))
    end.
Proof. destruct fuel; reflexivity. Qed.

(** ** Reasoning about how a call ends *)

Lemma ensures_bind {A B} D (Q : option A → ThreadPool → Prop)
    (Q' : option B → ThreadPool → Prop) r k :
  ensures D Q r →
  (∀ a p, Q (Some a) p → ensures D Q' (k a p)) →
  (∀ p, Q None p → Q' None p) →
  ensures D Q' (bind r k).
Proof. destruct r; simpl; auto. Qed.

Lemma ensures_mono {A} D (Q Q' : option A → ThreadPool → Prop) r :
  ensures D Q r → (∀ o p, Q o p → Q' o p) → ensures D Q' r.
Proof. destruct r; simpl; auto. Qed.

(** ** What a call leaves alone *)

Lemma frame_refl tid p : frame tid p p.
Proof. unfold frame. split_and!; auto. Qed.

Lemma frame_trans tid p1 p2 p3 :
  frame tid p1 p2 → frame tid p2 p3 → frame tid p1 p3.
Proof.
  unfold frame. intros (?&?&?&?&Hm&?&?&?) (?&?&?&?&Hm'&?&?&?).
  split_and!; try congruence; auto with lia.
  intros t Ht. by rewrite Hm', Hm.
Qed.

Lemma frame_set_mtx tid o p : frame tid p (set_mtx o p).
Proof. unfold frame. split_and!; auto. Qed.

Lemma frame_touch tid p : frame tid p (touch tid p).
Proof.
  unfold touch. destruct (RecursionMap p !! tid) eqn:Htid; [apply frame_refl|].
  unfold frame; simpl. split_and!; auto.
  - intros t Ht. by rewrite lookup_insert_ne.
  - intros Hu t d. simpl. rewrite lookup_insert.
    case_decide; [intros [= <-]; unfold UINT_MODULUS; lia|apply Hu].
Qed.

Lemma frame_counter tid d p :
  0 ≤ d < UINT_MODULUS →
  frame tid p (set_RecursionMap (<[tid := d]> (RecursionMap p)) p).
Proof.
  intros Hd. unfold frame; simpl. split_and!; auto.
  - intros t Ht. by rewrite lookup_insert_ne.
  - intros Hu t d'. simpl. rewrite lookup_insert.
    case_decide; [intros [= <-]; lia|apply Hu].
Qed.

Lemma wrap_range x : 0 ≤ wrap x < UINT_MODULUS.
Proof. unfold wrap, UINT_MODULUS. lia. Qed.

Lemma frame_increment tid p : frame tid p (increment tid p).
Proof. apply frame_counter, wrap_range. Qed.

Lemma frame_decrement tid p : frame tid p (decrement tid p).
Proof. apply frame_counter, wrap_range. Qed.

Lemma frame_set_shared tid s p :
  (length (shared p) ≤ length s)%nat → frame tid p (set_shared s p).
Proof. intros Hs. unfold frame. split_and!; auto. Qed.

Lemma frame_make_ready tid c o p : frame tid p (make_ready c o p).
Proof. apply frame_set_shared. by rewrite length_insert. Qed.

Lemma frame_make_shared_state tid p : frame tid p (make_shared_state p).2.
Proof. apply frame_set_shared. rewrite length_app. lia. Qed.

Lemma frame_set_locals tid l p : frame tid p (set_locals l p).
Proof. unfold frame. split_and!; auto. Qed.

Lemma frame_end_of_scope tid a p : frame tid p (end_of_scope a p).
Proof.
  unfold end_of_scope. destruct (locals p !! a) as [[t|]|]; try apply frame_refl.
  cbv zeta. set (p1 := set_locals _ p).
  assert (frame tid p p1) as H1 by apply frame_set_locals.
  destruct (shared p1 !! promise t) as [[| |]|]; try done.
  eapply frame_trans; [exact H1|]. apply frame_set_shared.
  by rewrite length_insert.
Qed.

Lemma frame_set_taskQueue tid q p :
  (heap_ordered (taskQueue p) → heap_ordered q) →
  frame tid p (set_taskQueue q p).
Proof. intros Hq. unfold frame. split_and!; auto. Qed.

Lemma frame_get tid fut p :
  ensures True (λ _ p', frame tid p p') (get fut p).
Proof.
  unfold get. repeat case_match; simpl; auto;
    apply frame_set_shared; by rewrite length_insert.
Qed.

Lemma frame_lock tid p :
  ensures True (λ _ p', frame tid p p') (lock tid p).
Proof. unfold lock. case_match; simpl; auto using frame_set_mtx. Qed.

Lemma frame_unlock tid p : frame tid p (unlock p).
Proof. apply frame_set_mtx. Qed.

Lemma frame_release tid b p : frame tid p (release b p).
Proof. destruct b; [apply frame_set_mtx|apply frame_refl]. Qed.

Create HintDb frame.

Global Hint Resolve frame_refl frame_set_mtx frame_touch frame_increment
  frame_decrement frame_make_ready frame_make_shared_state frame_release
  frame_unlock
  : frame.

(** A goal [frame tid p p'] is solved from the right: the last operation
    applied to reach [p'] is peeled off, or a hypothesis that ends in [p']
    is used. *)
Ltac frame_solve :=
  simpl in *;
  repeat first
    [ assumption
    | apply frame_refl
    | match goal with
      | H : frame ?t ?x ?y |- frame ?t _ ?y => eapply frame_trans; [|exact H]
      end
    | match goal with
      | |- frame _ _ (make_ready _ _ _) =>
          eapply frame_trans; [|apply frame_make_ready]
      | |- frame _ _ (unlock _) => eapply frame_trans; [|apply frame_unlock]
      | |- frame _ _ (release _ _) => eapply frame_trans; [|apply frame_release]
      | |- frame _ _ (decrement _ _) =>
          eapply frame_trans; [|apply frame_decrement]
      | |- frame _ _ (increment _ _) =>
          eapply frame_trans; [|apply frame_increment]
      | |- frame _ _ (set_mtx _ _) => eapply frame_trans; [|apply frame_set_mtx]
      | |- frame _ _ (touch _ _) => eapply frame_trans; [|apply frame_touch]
      end
    | apply frame_set_mtx
    | apply frame_touch
    | apply frame_make_shared_state ].

(** The statement proved for all four functions at once. *)
Lemma exec_frame fuel :
  (∀ tid a p, ensures True (λ _ p', frame tid p p') (run fuel tid a p))
  ∧ (∀ tid pr f p,
       ensures True (λ _ p', frame tid p p') (addTask fuel tid pr f p))
  ∧ (∀ tid fut p,
       ensures True (λ _ p', frame tid p p') (waitForTask fuel tid fut p))
  ∧ (∀ tid p, ensures True (λ _ p', frame tid p p') (tryToWork fuel tid p)).
Proof.
  induction fuel as [fuel IH] using lt_wf_ind. split_and!.
  - intros tid a p. rewrite run_eq.
    destruct a as [v|e|pr f k|fut k]; simpl; auto with frame;
      (destruct fuel as [|n]; [done|]);
      destruct (IH n ltac:(lia)) as (Hrun & Hadd & Hwait & _).
    + eapply ensures_bind; [apply Hadd| |done].
      intros fut p1 H1. eapply ensures_mono; [apply Hrun|].
      intros o p2 H2. simpl in *. frame_solve.
    + eapply ensures_bind; [apply Hwait| |done].
      intros v p1 H1. eapply ensures_mono; [apply Hrun|].
      intros o p2 H2. simpl in *. frame_solve.
  - intros tid pr f p. rewrite addTask_eq.
    destruct (stop p); simpl; auto with frame.
    pose proof (frame_touch tid p) as Ht. set (p0 := touch tid p) in *.
    pose proof (frame_make_shared_state tid p0) as Hs. simpl in Hs.
    destruct (counter tid p0 <? maxRecursion p0).
    + unfold lock; simpl. destruct (mtx p0); simpl; [done|].
      eapply frame_trans; [|apply frame_end_of_scope].
      eapply frame_trans; [|apply frame_unlock].
      eapply frame_trans; [|apply frame_set_taskQueue].
      * eapply frame_trans; [|apply frame_set_mtx].
        eapply frame_trans; [|apply frame_set_locals]. frame_solve.
      * intros Hq. by apply heap_ordered_emplace.
    + destruct fuel as [|n]; [done|].
      destruct (IH n ltac:(lia)) as (Hrun & _).
      eapply ensures_bind; [apply Hrun| |].
      * intros v p1 H1. simpl. frame_solve.
      * intros p1 H1. frame_solve.
  - intros tid fut p. rewrite waitForTask_eq.
    destruct (stop p); simpl; auto with frame.
    unfold lock. destruct (mtx p); simpl; [done|].
    set (p0 := set_mtx (Some tid) p).
    assert (frame tid p p0) as H0 by apply frame_set_mtx.
    destruct (is_ready fut p0) as [[]|]; [| |done].
    + pose proof (frame_get tid fut p0) as Hg.
      destruct (get fut p0); simpl in *; auto; frame_solve.
    + destruct fuel as [|n]; [done|].
      destruct (IH n ltac:(lia)) as (_ & _ & Hwait & Htry).
      eapply ensures_bind; [apply Htry| |].
      * intros owns p1 H1. eapply ensures_mono; [apply Hwait|].
        intros o p2 H2. simpl in *. frame_solve.
      * intros p1 H1. simpl in *. frame_solve.
  - intros tid p. rewrite tryToWork_eq.
    destruct (stop p); simpl; auto with frame.
    destruct (stl_heap.empty (taskQueue p)) eqn:Hq; simpl; auto with frame.
    destruct (stl_heap.top (taskQueue p)) as [[pr t]|] eqn:Htop; [|done].
    simpl. destruct fuel as [|n]; [done|].
    destruct (IH n ltac:(lia)) as (Hrun & _).
    set (p1 := increment tid _).
    assert (frame tid p p1) as H1.
    { eapply frame_trans; [|apply frame_increment].
      eapply frame_trans; [|apply frame_set_mtx].
      apply frame_set_taskQueue. intros Hh.
      by eapply heap_ordered_pop. }
    unfold invoke.
    destruct (locals p1 !! pFunc t) as [[t'|]|]; [|done|done].
    specialize (Hrun tid (boundFunc t') p1).
    destruct (run n tid (boundFunc t') p1) as [v p2|e p2| | |]; simpl in *;
      try done.
    + unfold lock; simpl. destruct (mtx p2); simpl; [done|]. frame_solve.
    + unfold lock; simpl. destruct (mtx p2); simpl; [done|]. frame_solve.
Qed.

(** ** The mutex and the recursion counter around a call *)

Lemma ensures_and {A} D (Q1 Q2 : option A → ThreadPool → Prop) r :
  ensures True Q1 r → ensures D Q2 r →
  ensures D (λ o p, Q1 o p ∧ Q2 o p) r.
Proof. destruct r; simpl; auto. Qed.

Lemma frame_uint tid p p' : frame tid p p' → uint_counters p → uint_counters p'.
Proof. intros (_&_&_&_&_&_&_&H). exact H. Qed.

Lemma counter_range tid p :
  uint_counters p → 0 ≤ counter tid p < UINT_MODULUS.
Proof.
  intros Hu. unfold counter. destruct (RecursionMap p !! tid) as [d|] eqn:Hd.
  - exact (Hu _ _ Hd).
  - unfold UINT_MODULUS. simpl. lia.
Qed.

Lemma counter_touch tid p : counter tid (touch tid p) = counter tid p.
Proof.
  unfold touch, counter. destruct (RecursionMap p !! tid) eqn:Hd; simpl.
  - by rewrite Hd.
  - by rewrite lookup_insert_eq.
Qed.

Lemma counter_increment tid p :
  counter tid (increment tid p) = wrap (counter tid p + 1).
Proof. unfold increment, counter at 1. simpl. by rewrite lookup_insert_eq. Qed.

Lemma counter_decrement tid p :
  counter tid (decrement tid p) = wrap (counter tid p - 1).
Proof. unfold decrement, counter at 1. simpl. by rewrite lookup_insert_eq. Qed.

Lemma counter_set_mtx tid o p : counter tid (set_mtx o p) = counter tid p.
Proof. reflexivity. Qed.

Lemma counter_make_ready tid c o p :
  counter tid (make_ready c o p) = counter tid p.
Proof. reflexivity. Qed.

(** The end of a scope changes the variables and the shared states
    only. *)
Lemma end_of_scope_fields a p :
  stop (end_of_scope a p) = stop p ∧ mtx (end_of_scope a p) = mtx p
  ∧ taskQueue (end_of_scope a p) = taskQueue p
  ∧ RecursionMap (end_of_scope a p) = RecursionMap p
  ∧ maxRecursion (end_of_scope a p) = maxRecursion p.
Proof.
  unfold end_of_scope. destruct (locals p !! a) as [[t|]|]; try done.
  cbv zeta. by destruct (shared _ !! promise t) as [[| |]|].
Qed.

Lemma counter_end_of_scope tid a p :
  counter tid (end_of_scope a p) = counter tid p.
Proof.
  unfold counter. by destruct (end_of_scope_fields a p) as (_&_&_&->&_).
Qed.

Lemma wrap_increment_decrement d :
  0 ≤ d < UINT_MODULUS → wrap (wrap (d + 1) - 1) = d.
Proof. unfold wrap, UINT_MODULUS. lia. Qed.

(** A call made with the mutex free does not block on it and leaves it
    free; [tryToWork], entered with the mutex owned, returns it owned by
    the caller's lock or free; no exception of a callable leaves it, as
    the packaged task stores it. *)
Lemma exec_mutex fuel :
  (∀ tid a p, mtx p = None →
     ensures False (λ _ p', mtx p' = None) (run fuel tid a p))
  ∧ (∀ tid pr f p, mtx p = None →
       ensures False (λ _ p', mtx p' = None) (addTask fuel tid pr f p))
  ∧ (∀ tid fut p, mtx p = None →
       ensures False (λ _ p', mtx p' = None) (waitForTask fuel tid fut p))
  ∧ (∀ tid p, mtx p = Some tid →
       ensures False
         (λ (o : option bool) p',
            match o with
            | Some owns_lock => mtx p' = (if owns_lock then Some tid else None)
            | None => False
            end)
         (tryToWork fuel tid p)).
Proof.
  induction fuel as [fuel IH] using lt_wf_ind. split_and!.
  - intros tid a p Hm. rewrite run_eq.
    destruct a as [v|e|pr f k|fut k]; simpl; auto;
      (destruct fuel as [|n]; [done|]);
      destruct (IH n ltac:(lia)) as (Hrun & Hadd & Hwait & _).
    + eapply ensures_bind; [by apply Hadd| |done].
      intros fut p1 Hm1. by apply Hrun.
    + eapply ensures_bind; [by apply Hwait| |done].
      intros v p1 Hm1. by apply Hrun.
  - intros tid pr f p Hm. rewrite addTask_eq.
    destruct (stop p); simpl; auto.
    assert (mtx (touch tid p) = None) as Hm0.
    { unfold touch. by destruct (RecursionMap p !! tid). }
    set (p0 := touch tid p) in *.
    destruct (counter tid p0 <? maxRecursion p0).
    + unfold lock; simpl. rewrite Hm0. simpl.
      by destruct (end_of_scope_fields (length (locals p0))
                     (unlock (set_taskQueue
                        (stl_heap.emplace comparePriority
                           (pr, mkClosure (length (locals p0)))
                           (taskQueue p0))
                        (set_mtx (Some tid)
                           (set_locals
                              (locals p0
                               ++ [Some (mkTask (length (shared p0)) f)])
                              (set_shared (shared p0 ++ [Pending]) p0))))))
        as (_ & -> & _).
    + destruct fuel as [|n]; [done|].
      destruct (IH n ltac:(lia)) as (Hrun & _).
      eapply ensures_bind; [by apply Hrun| |done].
      intros v p1 Hm1. done.
  - intros tid fut p Hm. rewrite waitForTask_eq.
    destruct (stop p); simpl; auto.
    unfold lock. rewrite Hm. simpl.
    set (p0 := set_mtx (Some tid) p).
    destruct (is_ready fut p0) as [[]|] eqn:Hr; [| |done].
    + unfold get. destruct fut as [|c]; [done|].
      by destruct (shared p0 !! c) as [[|[v|e]|]|].
    + destruct fuel as [|n]; [done|].
      destruct (IH n ltac:(lia)) as (_ & _ & Hwait & Htry).
      eapply ensures_bind; [by apply (Htry tid p0)| |done].
      intros owns p1 Hm1. simpl in *. apply Hwait.
      by destruct owns; simpl in *.
  - intros tid p Hm. rewrite tryToWork_eq.
    destruct (stop p); simpl; auto.
    destruct (stl_heap.empty (taskQueue p)) eqn:Hq; simpl; auto.
    destruct (stl_heap.top (taskQueue p)) as [[pr t]|] eqn:Htop; [|done].
    simpl. destruct fuel as [|n]; [done|].
    destruct (IH n ltac:(lia)) as (Hrun & _).
    set (p1 := increment tid _).
    unfold invoke.
    destruct (locals p1 !! pFunc t) as [[t'|]|]; [|done|done].
    specialize (Hrun tid (boundFunc t') p1 eq_refl).
    destruct (run n tid (boundFunc t') p1) as [v p2|e p2| | |]; simpl in *;
      try done; unfold lock; simpl; by rewrite Hrun.
Qed.

(** The counter of the executing thread is the same after a call as
    before it. *)
Lemma exec_counter fuel :
  (∀ tid a p, uint_counters p →
     ensures True (λ _ p', counter tid p' = counter tid p) (run fuel tid a p))
  ∧ (∀ tid pr f p, uint_counters p →
       ensures True (λ _ p', counter tid p' = counter tid p)
               (addTask fuel tid pr f p))
  ∧ (∀ tid fut p, uint_counters p →
       ensures True (λ _ p', counter tid p' = counter tid p)
               (waitForTask fuel tid fut p))
  ∧ (∀ tid p, uint_counters p →
       ensures True (λ _ p', counter tid p' = counter tid p)
               (tryToWork fuel tid p)).
Proof.
  induction fuel as [fuel IH] using lt_wf_ind. split_and!.
  - intros tid a p Hu. rewrite run_eq.
    destruct a as [v|e|pr f k|fut k]; simpl; auto;
      (destruct fuel as [|n]; [done|]);
      destruct (IH n ltac:(lia)) as (Hrun & Hadd & Hwait & _).
    + eapply ensures_bind;
        [apply ensures_and; [apply exec_frame|by apply Hadd]| |by intros ? [_ ?]].
      intros fut p1 [Hf Hc1]. simpl in *.
      eapply ensures_mono; [apply Hrun; eauto using frame_uint|].
      simpl. intros _ p2 ?. congruence.
    + eapply ensures_bind;
        [apply ensures_and; [apply exec_frame|by apply Hwait]| |by intros ? [_ ?]].
      intros v p1 [Hf Hc1]. simpl in *.
      eapply ensures_mono; [apply Hrun; eauto using frame_uint|].
      simpl. intros _ p2 ?. congruence.
  - intros tid pr f p Hu. rewrite addTask_eq.
    destruct (stop p); simpl; auto.
    pose proof (frame_touch tid p) as Ht.
    pose proof (counter_touch tid p) as Hc.
    set (p0 := touch tid p) in *.
    destruct (counter tid p0 <? maxRecursion p0).
    + unfold lock; simpl. destruct (mtx p0); simpl; [done|].
      by rewrite counter_end_of_scope.
    + destruct fuel as [|n]; [done|].
      destruct (IH n ltac:(lia)) as (Hrun & _).
      eapply ensures_bind; [apply Hrun| |].
      * eapply (frame_uint tid); [|exact Hu].
        eapply frame_trans; [exact Ht|apply frame_make_shared_state].
      * intros v p1 Hc1. unfold counter in *. simpl in *. congruence.
      * intros p1 Hc1. unfold counter in *. simpl in *. congruence.
  - intros tid fut p Hu. rewrite waitForTask_eq.
    destruct (stop p); simpl; auto.
    unfold lock. destruct (mtx p); simpl; [done|].
    set (p0 := set_mtx (Some tid) p).
    destruct (is_ready fut p0) as [[]|] eqn:Hr; [| |done].
    + unfold get. destruct fut as [|c]; [done|].
      by destruct (shared p0 !! c) as [[|[v|e]|]|].
    + destruct fuel as [|n]; [done|].
      destruct (IH n ltac:(lia)) as (_ & _ & Hwait & Htry).
      eapply ensures_bind;
        [apply ensures_and; [apply exec_frame|by apply (Htry tid p0)]| |].
      * intros owns p1 [Hf Hc1]. simpl in *.
        eapply ensures_mono; [apply Hwait|].
        -- eapply (frame_uint tid); [|exact Hu]. frame_solve.
        -- simpl. intros _ p2 Hc2. rewrite Hc2. by destruct owns.
      * by intros p1 [_ ?].
  - intros tid p Hu. rewrite tryToWork_eq.
    destruct (stop p); simpl; auto.
    destruct (stl_heap.empty (taskQueue p)) eqn:Hq; simpl; auto.
    destruct (stl_heap.top (taskQueue p)) as [[pr t]|] eqn:Htop; [|done].
    simpl. destruct fuel as [|n]; [done|].
    destruct (IH n ltac:(lia)) as (Hrun & _).
    set (p1 := increment tid _).
    assert (counter tid p1 = wrap (counter tid p + 1)) as Hc1.
    { subst p1. by rewrite counter_increment. }
    assert (uint_counters p1) as Hu1.
    { eapply (frame_uint tid); [|exact Hu]. subst p1. frame_solve.
      apply frame_set_taskQueue. intros Hh. by eapply heap_ordered_pop. }
    pose proof (counter_range tid p Hu) as Hrange.
    unfold invoke.
    destruct (locals p1 !! pFunc t) as [[t'|]|]; [|done|done].
    specialize (Hrun tid (boundFunc t') p1 Hu1).
    destruct (run n tid (boundFunc t') p1) as [v p2|e p2| | |]; simpl in *;
      try done; unfold lock; simpl; (destruct (mtx p2); simpl; [done|]);
      unfold unlock;
      rewrite !counter_set_mtx, counter_decrement, counter_make_ready,
        Hrun, Hc1;
      by apply wrap_increment_decrement.
Qed.

(** ** A thread at the recursion bound adds nothing to the store *)

Lemma frame_heap tid p p' :
  frame tid p p' → heap_ordered (taskQueue p) → heap_ordered (taskQueue p').
Proof. intros (_&_&_&_&_&_&H&_). exact H. Qed.

Lemma frame_maxRecursion tid p p' :
  frame tid p p' → maxRecursion p' = maxRecursion p.
Proof. intros (_&H&_). exact H. Qed.

Lemma exec_kept fuel :
  (∀ tid a p, uint_counters p →
     ensures True (λ _ p', kept tid p p') (run fuel tid a p))
  ∧ (∀ tid pr f p, uint_counters p →
       ensures True (λ _ p', kept tid p p') (addTask fuel tid pr f p))
  ∧ (∀ tid fut p, uint_counters p →
       ensures True (λ _ p', kept tid p p') (waitForTask fuel tid fut p))
  ∧ (∀ tid p, uint_counters p →
       ensures True (λ _ p', kept tid p p') (tryToWork fuel tid p)).
Proof.
  destruct (exec_frame fuel) as (F1 & F2 & F3 & F4).
  destruct (exec_counter fuel) as (C1 & C2 & C3 & C4).
  split_and!; intros; apply ensures_and; auto.
Qed.

Lemma at_bound_kept fuel n tid p p' :
  (n ≤ fuel)%nat → at_bound fuel tid p → kept tid p p' → at_bound n tid p'.
Proof.
  intros Hn (Hu & Hh & Hmax & Hw) [Hf Hc]. unfold at_bound.
  rewrite Hc, (frame_maxRecursion _ _ _ Hf).
  split_and!; [by eapply frame_uint|by eapply frame_heap|done|lia].
Qed.

(** While the counter of a thread is at the bound, whatever the thread
    executes takes entries off the store but pushes none: submissions are
    executed in place, also those of the entries it executes while it
    waits. *)
Lemma exec_at_bound fuel :
  (∀ tid a p, at_bound fuel tid p →
     ensures True (λ _ p', taskQueue p' ⊆+ taskQueue p) (run fuel tid a p))
  ∧ (∀ tid pr f p, at_bound fuel tid p →
       ensures True (λ _ p', taskQueue p' ⊆+ taskQueue p)
               (addTask fuel tid pr f p))
  ∧ (∀ tid fut p, at_bound fuel tid p →
       ensures True (λ _ p', taskQueue p' ⊆+ taskQueue p)
               (waitForTask fuel tid fut p))
  ∧ (∀ tid p, at_bound fuel tid p →
       ensures True (λ _ p', taskQueue p' ⊆+ taskQueue p)
               (tryToWork fuel tid p)).
Proof.
  induction fuel as [fuel IH] using lt_wf_ind. split_and!.
  - intros tid a p Hb. rewrite run_eq.
    destruct a as [v|e|pr f k|fut k]; simpl; auto;
      (destruct fuel as [|n]; [done|]);
      destruct (IH n ltac:(lia)) as (Hrun & Hadd & Hwait & _);
      destruct (exec_kept n) as (Krun & Kadd & Kwait & _);
      assert (at_bound n tid p) as Hb'
        by (apply (at_bound_kept (S n) n tid p p);
            [lia|exact Hb|split; [apply frame_refl|done]]).
    + eapply ensures_bind;
        [apply ensures_and; [apply Kadd, Hb'|apply Hadd, Hb']
        | |by intros ? [_ ?]].
      intros fut p1 [Hk Hq]. simpl in *.
      eapply ensures_mono;
        [apply Hrun; by eapply (at_bound_kept n n tid p p1)|].
      simpl. intros _ p2 Hq2. by etrans.
    + eapply ensures_bind;
        [apply ensures_and; [apply Kwait, Hb'|apply Hwait, Hb']
        | |by intros ? [_ ?]].
      intros v p1 [Hk Hq]. simpl in *.
      eapply ensures_mono;
        [apply Hrun; by eapply (at_bound_kept n n tid p p1)|].
      simpl. intros _ p2 Hq2. by etrans.
  - intros tid pr f p Hb. rewrite addTask_eq.
    destruct (stop p); simpl; auto.
    assert (kept tid p (touch tid p)) as Hk
      by (split; [apply frame_touch|apply counter_touch]).
    pose proof (at_bound_kept fuel fuel tid p _ ltac:(lia) Hb Hk) as Hb0.
    assert (taskQueue (touch tid p) = taskQueue p) as Hq0.
    { unfold touch. by destruct (RecursionMap p !! tid). }
    set (p0 := touch tid p) in *.
    destruct (Z.ltb_spec (counter tid p0) (maxRecursion p0)) as [Hlt|_].
    { destruct Hb0 as (_ & _ & ? & _). lia. }
    destruct fuel as [|n]; [done|].
    destruct (IH n ltac:(lia)) as (Hrun & _).
    eapply ensures_bind; [apply Hrun| |].
    + eapply (at_bound_kept (S n) n tid p0); [lia|exact Hb0|].
      split; [apply frame_make_shared_state|done].
    + intros v p1 Hq. simpl in *. by rewrite <-Hq0.
    + intros p1 Hq. simpl in *. by rewrite <-Hq0.
  - intros tid fut p Hb. rewrite waitForTask_eq.
    destruct (stop p); simpl; auto.
    unfold lock. destruct (mtx p); simpl; [done|].
    set (p0 := set_mtx (Some tid) p).
    assert (at_bound fuel tid p0) as Hb0.
    { apply (at_bound_kept fuel fuel tid p p0);
        [lia|exact Hb|split; [apply frame_set_mtx|done]]. }
    destruct (is_ready fut p0) as [[]|] eqn:Hr; [| |done].
    + unfold get. destruct fut as [|c]; [done|].
      destruct (shared p0 !! c) as [[|[v|e]|]|]; simpl; try done; reflexivity.
    + destruct fuel as [|n]; [done|].
      destruct (IH n ltac:(lia)) as (_ & _ & Hwait & Htry).
      destruct (exec_kept n) as (_ & _ & _ & Ktry).
      assert (at_bound n tid p0) as Hb0'.
      { apply (at_bound_kept (S n) n tid p0 p0);
          [lia|exact Hb0|split; [apply frame_refl|done]]. }
      eapply ensures_bind;
        [apply ensures_and; [apply Ktry, Hb0'|apply Htry, Hb0']| |].
      * intros owns p1 [[Hf Hc] Hq]. simpl in *.
        eapply ensures_mono; [apply Hwait|].
        -- eapply (at_bound_kept n n tid p0); [lia|exact Hb0'|].
           split; [frame_solve|by destruct owns].
        -- simpl. intros _ p2 Hq2. etrans; [exact Hq2|].
           by destruct owns.
      * by intros p1 [_ ?].
  - intros tid p Hb. rewrite tryToWork_eq.
    destruct (stop p); simpl; auto.
    destruct (stl_heap.empty (taskQueue p)) eqn:Hq; simpl; auto.
    destruct (stl_heap.top (taskQueue p)) as [[pr t]|] eqn:Htop; [|done].
    simpl. destruct fuel as [|n]; [done|].
    destruct (IH n ltac:(lia)) as (Hrun & _).
    destruct Hb as (Hu & Hh & Hmax & Hw).
    destruct (heap_ordered_pop _ _ Hh Htop) as [Hh' Hperm].
    pose proof (counter_range tid p Hu) as Hrange.
    set (p1 := increment tid _).
    assert (counter tid p1 = counter tid p + 1) as Hc1.
    { subst p1. rewrite counter_increment.
      change (counter tid (unlock _)) with (counter tid p).
      unfold wrap, UINT_MODULUS in *. lia. }
    assert (at_bound n tid p1) as Hb1.
    { unfold at_bound. rewrite Hc1.
      split_and!; [|done|simpl; lia|lia].
      eapply (frame_uint tid); [|exact Hu]. subst p1. frame_solve.
      by apply frame_set_taskQueue. }
    assert (taskQueue p1 ⊆+ taskQueue p) as Hsub.
    { subst p1. simpl. rewrite Hperm at 2. by apply submseteq_cons. }
    unfold invoke.
    destruct (locals p1 !! pFunc t) as [[t'|]|]; [|done|done].
    specialize (Hrun tid (boundFunc t') p1 Hb1).
    destruct (run n tid (boundFunc t') p1) as [v p2|e p2| | |]; simpl in *;
      try done; unfold lock; simpl; (destruct (mtx p2); simpl; [done|]);
      by etrans.
Qed.

(** ** A task-execution attempt that finds an entry *)

(** The state in which [tryToWork] calls the entry it took: the entry is
    off the queue, the mutex is released and the counter of the thread is
    incremented. *)
Lemma tryToWork_takes fuel tid p pr t :
  stop p = false → stl_heap.empty (taskQueue p) = false →
  stl_heap.top (taskQueue p) = Some (pr, t) →
  tryToWork (S fuel) tid p
  = bind (invoke (run fuel tid) t
            (increment tid
               (unlock (set_taskQueue
                          (stl_heap.pop comparePriority (taskQueue p)) p))))
         (fun _ p => bind (lock tid (decrement tid p))
                          (fun _ p => Ok false (unlock p))).
Proof. intros Hstop Hne Htop. by rewrite tryToWork_eq, Hstop, Hne, Htop. Qed.

(** ** The variables that the closures refer to *)

(** A closure called when every activation has returned refers to a
    variable that is gone. *)
Lemma invoke_out_of_scope exec t p :
  out_of_scope p → invoke exec t p = Undefined.
Proof.
  unfold out_of_scope, invoke. intros Hp.
  destruct (locals p !! pFunc t) as [[t'|]|] eqn:Ht; [|done|done].
  apply (Forall_lookup_1 _ _ _ _ Hp) in Ht. done.
Qed.

(** [addTask] returns with its variable gone: the packaged task is
    destroyed before anything has called it, and its shared state holds
    the broken promise. *)
Lemma end_of_scope_declared t p :
  shared p !! promise t = Some Pending →
  let a := length (locals p) in
  ∀ p1, locals p1 = locals p ++ [Some t] → shared p1 = shared p →
  locals (end_of_scope a p1) = locals p ++ [None]
  ∧ shared (end_of_scope a p1)
    = <[promise t := Ready (Failure broken_promise)]> (shared p).
Proof.
  intros Hc a p1 Hl Hs. unfold end_of_scope.
  rewrite Hl, list_lookup_middle by done. cbv zeta. cbn [shared set_locals].
  rewrite Hs, Hc. cbn [locals shared make_ready set_shared set_locals].
  rewrite Hs. split; [|done].
  subst a. clear. induction (locals p) as [|x l IH]; [done|].
  simpl. by rewrite IH.
Qed.

Lemma out_of_scope_end a p :
  Forall (λ l, l = None) (<[a := None]> (locals p)) →
  out_of_scope (end_of_scope a p).
Proof.
  intros H. unfold out_of_scope, end_of_scope.
  destruct (locals p !! a) as [[t|]|] eqn:Ha.
  - cbv zeta. by destruct (shared _ !! promise t) as [[| |]|].
  - by rewrite list_insert_id in H.
  - rewrite list_insert_ge in H; [done|]. by apply lookup_ge_None.
Qed.

(** An attempt that takes an entry when every activation of [addTask]
    has returned: the call of the closure is undefined. *)
Lemma tryToWork_out_of_scope fuel tid p :
  stop p = false → stl_heap.empty (taskQueue p) = false →
  out_of_scope p →
  tryToWork (S fuel) tid p = Undefined.
Proof.
  intros Hstop Hne Hp. destruct (top_nonempty _ Hne) as [[pr t] Htop].
  rewrite (tryToWork_takes _ _ _ pr t) by done.
  by rewrite invoke_out_of_scope.
Qed.

(** Calls that end leave no variable behind, and take nothing off the
    store: an attempt that takes an entry does not end. *)
Lemma exec_scope fuel :
  (∀ tid a p, out_of_scope p →
     ensures True (λ _ p', out_of_scope p' ∧ taskQueue p ⊆+ taskQueue p')
             (run fuel tid a p))
  ∧ (∀ tid pr f p, out_of_scope p →
       ensures True (λ _ p', out_of_scope p' ∧ taskQueue p ⊆+ taskQueue p')
               (addTask fuel tid pr f p))
  ∧ (∀ tid fut p, out_of_scope p →
       ensures True (λ _ p', out_of_scope p' ∧ taskQueue p ⊆+ taskQueue p')
               (waitForTask fuel tid fut p))
  ∧ (∀ tid p, out_of_scope p →
       ensures True (λ _ p', out_of_scope p' ∧ taskQueue p ⊆+ taskQueue p')
               (tryToWork fuel tid p)).
Proof.
  induction fuel as [fuel IH] using lt_wf_ind. split_and!.
  - intros tid a p Hp. rewrite run_eq.
    destruct a as [v|e|pr f k|fut k]; simpl; auto;
      (destruct fuel as [|n]; [done|]);
      destruct (IH n ltac:(lia)) as (Hrun & Hadd & Hwait & _).
    + eapply ensures_bind; [by apply Hadd| |done].
      intros fut p1 [Hp1 Hq1]. eapply ensures_mono; [by apply Hrun|].
      simpl. intros _ p2 [Hp2 Hq2]. split; [done|by etrans].
    + eapply ensures_bind; [by apply Hwait| |done].
      intros v p1 [Hp1 Hq1]. eapply ensures_mono; [by apply Hrun|].
      simpl. intros _ p2 [Hp2 Hq2]. split; [done|by etrans].
  - intros tid pr f p Hp. rewrite addTask_eq.
    destruct (stop p); simpl; auto.
    assert (locals (touch tid p) = locals p
            ∧ taskQueue (touch tid p) = taskQueue p) as [Hl0 Hq0].
    { unfold touch. by destruct (RecursionMap p !! tid). }
    set (p0 := touch tid p) in *.
    destruct (counter tid p0 <? maxRecursion p0).
    + unfold lock; simpl. destruct (mtx p0); simpl; [done|].
      split.
      * apply out_of_scope_end. simpl. rewrite Hl0.
        rewrite insert_app_r_alt, Nat.sub_diag by done. simpl.
        apply Forall_app. split; [exact Hp|by constructor].
      * destruct (end_of_scope_fields (length (locals p0))
                    (unlock (set_taskQueue
                       (stl_heap.emplace comparePriority
                          (pr, mkClosure (length (locals p0)))
                          (taskQueue p0))
                       (set_mtx (Some tid)
                          (set_locals
                             (locals p0
                              ++ [Some (mkTask (length (shared p0)) f)])
                             (set_shared (shared p0 ++ [Pending]) p0))))))
          as (_ & _ & -> & _).
        simpl. rewrite emplace_perm, Hq0. by apply submseteq_cons.
    + destruct fuel as [|n]; [done|].
      destruct (IH n ltac:(lia)) as (Hrun & _).
      eapply ensures_bind; [apply Hrun| |].
      * unfold out_of_scope. simpl. by rewrite Hl0.
      * intros v p1 [Hp1 Hq1]. simpl in *. by rewrite <-Hq0.
      * intros p1 [Hp1 Hq1]. simpl in *. by rewrite <-Hq0.
  - intros tid fut p Hp. rewrite waitForTask_eq.
    destruct (stop p); simpl; auto.
    unfold lock. destruct (mtx p); simpl; [done|].
    set (p0 := set_mtx (Some tid) p).
    destruct (is_ready fut p0) as [[]|] eqn:Hr; [| |done].
    + unfold get. destruct fut as [|c]; [done|].
      by destruct (shared p0 !! c) as [[|[v|e]|]|].
    + destruct fuel as [|n]; [done|].
      destruct (IH n ltac:(lia)) as (_ & _ & Hwait & Htry).
      eapply ensures_bind; [by apply (Htry tid p0)| |done].
      intros owns p1 [Hp1 Hq1]. eapply ensures_mono; [apply Hwait|].
      * by destruct owns.
      * simpl. intros _ p2 [Hp2 Hq2]. split; [done|].
        etrans; [exact Hq1|]. by destruct owns.
  - intros tid p Hp. rewrite tryToWork_eq.
    destruct (stop p) eqn:Hstop; simpl; auto.
    destruct (stl_heap.empty (taskQueue p)) eqn:Hq; simpl; auto.
    destruct (stl_heap.top (taskQueue p)) as [[pr t]|] eqn:Htop; [|done].
    simpl. destruct fuel as [|n]; [done|].
    by rewrite invoke_out_of_scope.
Qed.

(** ** The invariants hold from construction on *)

Lemma spawn_workers get_id l p :
  length (workers (foldl (spawn get_id) p l))
  = (length (workers p) + length l)%nat
  ∧ threadNumber (foldl (spawn get_id) p l) = threadNumber p
  ∧ stop (foldl (spawn get_id) p l) = stop p
  ∧ mtx (foldl (spawn get_id) p l) = mtx p
  ∧ taskQueue (foldl (spawn get_id) p l) = taskQueue p.
Proof.
  revert p. induction l as [|i l IH]; intros p; simpl.
  - split_and!; auto with lia.
  - destruct (IH (spawn get_id p i)) as (-> & -> & -> & -> & ->). simpl.
    rewrite length_app. simpl. split_and!; auto with lia.
Qed.

Lemma map_emplace_zero id (m : gmap thread_id Z) :
  map_Forall (λ _ d, d = 0) m →
  map_Forall (λ _ d, d = 0) (map_emplace id 0 m)
  ∧ map_emplace id 0 m !! id = Some 0.
Proof.
  intros Hm. unfold map_emplace. destruct (m !! id) as [d|] eqn:Hid.
  - split; [done|]. by rewrite (Hm _ _ Hid) in Hid.
  - split; [by apply map_Forall_insert_2|by rewrite lookup_insert_eq].
Qed.

Lemma spawn_zero get_id l p :
  map_Forall (λ _ d, d = 0) (RecursionMap p) →
  map_Forall (λ _ d, d = 0) (RecursionMap (foldl (spawn get_id) p l)).
Proof.
  revert p. induction l as [|i l IH]; intros p Hp; [done|].
  simpl. apply IH. simpl. by apply map_emplace_zero.
Qed.

(** A new pool is running, its mutex is free, its store is an empty heap
    and its counters are zero. *)
Lemma ThreadPool_new_invariants hc get_id self thread depth shared0 :
  let p := ThreadPool_new hc get_id self thread depth shared0 in
  stop p = false ∧ mtx p = None ∧ taskQueue p = []
  ∧ heap_ordered (taskQueue p) ∧ uint_counters p ∧ counter self p = 0.
Proof.
  unfold ThreadPool_new. cbv zeta.
  match goal with |- context [foldl (spawn get_id) ?p0 ?l] =>
    destruct (spawn_workers get_id l p0) as (_ & _ & Hs & Hm & Hq);
    pose proof (spawn_zero get_id l p0 (map_Forall_empty _)) as Hz;
    set (p1 := foldl (spawn get_id) p0 l) in *
  end.
  destruct (map_emplace_zero self _ Hz) as [Hz' Hself].
  unfold counter, uint_counters. simpl in *. rewrite Hq, Hself.
  split_and!; try done; try apply heap_ordered_nil.
  eapply map_Forall_impl; [exact Hz'|].
  intros _ d ->. unfold UINT_MODULUS. lia.
Qed.

Lemma spawn_locals get_id l p :
  locals (foldl (spawn get_id) p l) = locals p.
Proof.
  revert p. induction l as [|i l IH]; intros p; [done|].
  simpl. by rewrite IH.
Qed.

(** No activation of [addTask] exists in a new pool. *)
Lemma ThreadPool_new_scope hc get_id self thread depth shared0 :
  out_of_scope (ThreadPool_new hc get_id self thread depth shared0).
Proof.
  unfold out_of_scope, ThreadPool_new. cbv zeta. simpl.
  rewrite spawn_locals. simpl. constructor.
Qed.

(** Whatever a thread executes, starting with the mutex free, the
    invariants hold again when it is done. *)
Lemma run_invariants fuel tid a p :
  mtx p = None → heap_ordered (taskQueue p) → uint_counters p →
  ensures False
    (λ _ p', mtx p' = None ∧ heap_ordered (taskQueue p') ∧ uint_counters p'
             ∧ stop p' = stop p ∧ counter tid p' = counter tid p)
    (run fuel tid a p).
Proof.
  intros Hm Hh Hu.
  destruct (exec_frame fuel) as (Hf & _). specialize (Hf tid a p).
  destruct (exec_mutex fuel) as (Hx & _). specialize (Hx tid a p Hm).
  destruct (exec_counter fuel) as (Hc & _). specialize (Hc tid a p Hu).
  destruct (run fuel tid a p); simpl in *; try done;
    destruct Hf as (?&_&_&_&_&_&?&?); auto.
Qed.

(** ** The examples evaluated *)

Example heap_run :
  let comp := fun a b : Z => a <? b in
  let q := stl_heap.emplace comp 4 (stl_heap.emplace comp 9
             (stl_heap.emplace comp 1 (stl_heap.emplace comp 7
                (stl_heap.emplace comp 3 [])))) in
  (q, stl_heap.pop comp q, stl_heap.pop comp (stl_heap.pop comp q))
  = ([9; 7; 1; 3; 4], [7; 4; 1; 3], [4; 3; 1]).
Proof. vm_compute. reflexivity. Qed.

(** Thread 0 submits two callables below the bound and waits for the
    first future.  The packaged tasks were destroyed when [addTask]
    returned: the wait exits by the broken promise, no callable has been
    executed and both entries are still in the store. *)
Example scenario_runs :
  match run 10 0%nat scenario pool2 with
  | Raised e p =>
      e = broken_promise ∧ (taskQueue p).*1 = [5; 1]
      ∧ shared p = [Retrieved; Ready (Failure broken_promise)]
      ∧ locals p = [None; None]
      ∧ mtx p = None ∧ counter 0%nat p = 0
  | _ => False
  end.
Proof. vm_compute. repeat split; reflexivity. Qed.

(** At the bound the same program is executed in place. *)
Example scenario_inline :
  match run 10 0%nat scenario pool_inline with
  | Ok v p => v = 47 ∧ taskQueue p = [] ∧ shared p = [Retrieved; Retrieved]
              ∧ mtx p = None ∧ counter 0%nat p = 0
  | _ => False
  end.
Proof. vm_compute. repeat split; reflexivity. Qed.

Example pool3_queue : (taskQueue pool3).*1 = [5; 1; 3].
Proof. vm_compute. reflexivity. Qed.

(** ** The claims of the specification *)

(** C1.  Among the entries resident in the store, a task-execution attempt
    takes one of greatest priority: the entry [(pr, t)] it removes is the
    top of the heap, no resident entry has a greater priority, the store
    is the removed entry together with what stays, the attempt goes on by
    executing [t], and of two resident entries with priorities [p2 < p1]
    the one with [p2] stays in the store.  Successive removals from the
    store therefore come with the greatest priority first. *)
Theorem C1_pop_takes_greatest_priority fuel tid p :
  stop p = false → heap_ordered (taskQueue p) →
  stl_heap.empty (taskQueue p) = false →
  ∃ pr t,
    let rest := stl_heap.pop comparePriority (taskQueue p) in
    stl_heap.top (taskQueue p) = Some (pr, t)
    ∧ (∀ e, e ∈ taskQueue p → e.1 ≤ pr)
    ∧ taskQueue p ≡ₚ (pr, t) :: rest
    ∧ tryToWork (S fuel) tid p
      = bind (invoke (run fuel tid) t
                (increment tid (unlock (set_taskQueue rest p))))
             (fun _ p => bind (lock tid (decrement tid p))
                              (fun _ p => Ok false (unlock p)))
    ∧ (∀ p1 f1 p2 f2, (p1, f1) ∈ taskQueue p → (p2, f2) ∈ taskQueue p →
                      p2 < p1 → (p2, f2) ∈ rest)
    ∧ (∀ n, StronglySorted (λ a b, b.1 ≤ a.1) (drain n (taskQueue p))).
Proof.
  intros Hstop Hheap Hne.
  destruct (top_nonempty _ Hne) as [[pr t] Htop]. exists pr, t. cbv zeta.
  destruct (heap_ordered_pop _ _ Hheap Htop) as [_ Hperm].
  assert (∀ e, e ∈ taskQueue p → e.1 ≤ pr) as Hmax.
  { intros e He. apply (heap_ordered_top _ _ _ Hheap Htop He). }
  split_and!; auto.
  - rewrite tryToWork_eq, Hstop, Hne, Htop. reflexivity.
  - intros p1 f1 p2 f2 H1 H2 Hlt. rewrite Hperm in H2.
    apply elem_of_cons in H2 as [[= -> ->]|H2]; [|done].
    specialize (Hmax _ H1). simpl in Hmax. lia.
  - intros n. by apply drain_sorted.
Qed.

Lemma C1_witness :
  ∃ pr t,
    stl_heap.top (taskQueue pool3) = Some (pr, t) ∧ pr = 5
    ∧ (∀ e, e ∈ taskQueue pool3 → e.1 ≤ pr)
    ∧ (drain 3 (taskQueue pool3)).*1 = [5; 3; 1].
Proof.
  destruct (C1_pop_takes_greatest_priority 3 1%nat pool3)
    as (pr & t & Htop & Hmax & _).
  - reflexivity.
  - apply (is_heapb_correct fst). vm_compute. reflexivity.
  - reflexivity.
  - exists pr, t. split_and!; [done| |done|vm_compute; reflexivity].
    vm_compute in Htop. by injection Htop as <- _.
Defined.

(** At the bound, a callable that ends by an exception makes [addTask] end
    by that exception. *)
Lemma addTask_at_bound_raises fuel tid priority f p e p' :
  stop p = false → maxRecursion p ≤ counter tid p →
  run fuel tid f (make_shared_state (touch tid p)).2 = Raised e p' →
  addTask (S fuel) tid priority f p = Raised e p'.
Proof.
  intros Hstop Hmax Hrun. rewrite addTask_eq, Hstop. cbv zeta.
  replace (counter tid (touch tid p) <? maxRecursion (touch tid p)) with false.
  - unfold make_shared_state in *. simpl in *. by rewrite Hrun.
  - symmetry. apply Z.ltb_ge. rewrite counter_touch.
    unfold touch. by destruct (RecursionMap p !! tid).
Qed.

(** C2 on the code.  In a running pool with [maxRecursionDepth = 0],
    thread 0 submits a callable that submits a callable and then throws.
    Both are executed in place, inside the call, and nothing is queued;
    but [addTask] exits by the exception: no future is returned, and the
    shared state of the promise that was made for the result is left
    without an outcome. *)
Theorem C2_no_future_for_an_action_that_throws :
  stop pool_inline = false
  ∧ maxRecursion pool_inline ≤ counter 0%nat pool_inline
  ∧ ∃ p',
      addTask 3 0%nat 3 submit_then_throw pool_inline = Raised boom p'
      ∧ taskQueue p' = []
      ∧ shared p' = [Pending; Ready (Value 1)]
      ∧ ∀ fut p'',
          addTask 3 0%nat 3 submit_then_throw pool_inline ≠ Ok fut p''.
Proof.
  split_and!; [reflexivity|vm_compute; discriminate|].
  eexists. split; [|split_and!].
  - apply addTask_at_bound_raises; [reflexivity|vm_compute; discriminate|].
    vm_compute. reflexivity.
  - reflexivity.
  - reflexivity.
  - intros fut p'' H. vm_compute in H. discriminate.
Qed.

(** C3 on the code.  In a running pool with [maxRecursionDepth = 0], thread
    0 submits a callable that throws: [addTask] itself exits by the
    exception, no future is returned, and the shared state of the promise
    that was made for the result is left without the failure. *)
Theorem C3_failure_at_the_bound_leaves_addTask :
  stop pool_inline = false
  ∧ maxRecursion pool_inline ≤ counter 0%nat pool_inline
  ∧ addTask 1 0%nat 0 (Throw boom) pool_inline
    = Raised boom (make_shared_state pool_inline).2
  ∧ shared (make_shared_state pool_inline).2 = [Pending].
Proof.
  split_and!; [reflexivity|vm_compute; discriminate| |reflexivity].
  by apply addTask_at_bound_raises; [|vm_compute|].
Qed.

(** Below the bound the same callable is queued, where a packaged task
    is there to capture what it throws: no exception leaves [addTask],
    and a future is returned. *)
Example queued_failure_does_not_leave_addTask :
  ∃ p1,
    addTask 1 0%nat 0 (Throw boom) pool2 = Ok (SharedState 0) p1
    ∧ (taskQueue p1).*1 = [0].
Proof. eexists. split; vm_compute; reflexivity. Qed.

(** C4.  A submission to a stopped pool returns a future without shared
    state, on which neither the readiness test nor [get] is defined, and
    changes nothing: no entry is added, no counter is created, and the
    callable is not executed, whatever the counter of the thread. *)
Theorem C4_submit_after_stop fuel tid priority f p :
  stop p = true →
  addTask fuel tid priority f p = Ok NoState p
  ∧ (∀ q, is_ready NoState q = None ∧ get NoState q = Undefined).
Proof. intros Hstop. rewrite addTask_eq, Hstop. done. Qed.

Lemma C4_witness :
  addTask 3 0%nat 9 (Return 1) (ThreadPool_delete pool3)
  = Ok NoState (ThreadPool_delete pool3).
Proof.
  apply (C4_submit_after_stop 3 0%nat 9 (Return 1) (ThreadPool_delete pool3)).
  reflexivity.
Defined.

(** C5, as stated, fails: the future of thread 0 is complete with the
    value 7 when the pool is stopped, and [waitForTask] returns the
    sentinel 0, not the value. *)
Lemma C5_counterexample :
  let p := ThreadPool_delete pool_done in
  is_ready (SharedState 0) p = Some true
  ∧ shared p !! 0%nat = Some (Ready (Value 7))
  ∧ waitForTask 5 0%nat (SharedState 0) p = Ok 0 p
  ∧ ¬ ∃ p', waitForTask 5 0%nat (SharedState 0) p = Ok 7 p'.
Proof. vm_compute. split_and!; try done. by intros [p' [=]]. Qed.

(** C5, amended.  [waitForTask] on a complete future, called with the mutex
    free: if the pool is stopped it returns the sentinel
    [static_cast<T>(NULL)] and leaves the future alone; otherwise it
    returns the value of the future, or rethrows the failure captured in
    it, and the future has given up its shared state.  On a stopped pool
    the sentinel is returned for every future. *)
Theorem C5_waitForTask_complete fuel tid c o p :
  mtx p = None → shared p !! c = Some (Ready o) →
  waitForTask fuel tid (SharedState c) p
  = (if stop p then Ok 0 p
     else match o with
          | Value v => Ok v (set_shared (<[c := Retrieved]> (shared p)) p)
          | Failure e => Raised e (set_shared (<[c := Retrieved]> (shared p)) p)
          end)
  ∧ (stop p = true → ∀ fut, waitForTask fuel tid fut p = Ok 0 p).
Proof.
  intros Hm Hc. split.
  - rewrite waitForTask_eq. destruct (stop p) eqn:Hstop; [done|].
    unfold lock. rewrite Hm. simpl. rewrite Hc. simpl. rewrite ?Hc.
    destruct p; simpl in *; subst. by destruct o.
  - intros Hstop fut. by rewrite waitForTask_eq, Hstop.
Qed.

Lemma C5_witness :
  waitForTask 0 0%nat (SharedState 0) pool_done
  = Ok 7 (set_shared (<[0%nat := Retrieved]> (shared pool_done)) pool_done)
  ∧ waitForTask 0 0%nat (SharedState 0) (ThreadPool_delete pool_done)
    = Ok 0 (ThreadPool_delete pool_done).
Proof.
  split.
  - apply (C5_waitForTask_complete 0 0%nat 0%nat (Value 7) pool_done);
      reflexivity.
  - apply (C5_waitForTask_complete 0 0%nat 0%nat (Value 7)
             (ThreadPool_delete pool_done)); reflexivity.
Defined.

(** C6, as stated, fails: a host that reports a hardware concurrency of
    zero gets a pool without workers. *)
Lemma C6_counterexample :
  let p := ThreadPool_new 0 (fun i => S i) 0%nat (Some 0) None [] in
  threadNumber p = 0 ∧ workers p = [] ∧ ¬ (1 ≤ length (workers p))%nat.
Proof. vm_compute. split_and!; try done. lia. Qed.

(** C6, amended.  A pool constructed with a worker count of zero, or with
    none, has as many workers as the host reports hardware concurrency:
    at least one exactly when the host reports at least one. *)
Theorem C6_worker_count hc get_id self thread depth shared0 :
  thread = Some 0 ∨ thread = None →
  let p := ThreadPool_new hc get_id self thread depth shared0 in
  threadNumber p = hc
  ∧ length (workers p) = Z.to_nat hc
  ∧ ((1 ≤ length (workers p))%nat ↔ 1 ≤ hc).
Proof.
  intros Hthread p.
  assert ((if default hc thread =? 0 then hc else default hc thread) = hc)
    as Hn.
  { destruct Hthread as [-> | ->]; simpl; [done|].
    destruct (Z.eqb_spec hc 0); done. }
  subst p. unfold ThreadPool_new. rewrite Hn. simpl.
  match goal with |- context [foldl (spawn get_id) ?p0 ?l] =>
    destruct (spawn_workers get_id l p0) as (Hw & Ht & _) end.
  rewrite Ht, Hw, length_seq. simpl. lia.
Qed.

Lemma C6_witness :
  length (workers (ThreadPool_new 4 (fun i => S i) 0%nat (Some 0) None []))
  = 4%nat.
Proof.
  apply (C6_worker_count 4 (fun i => S i) 0%nat (Some 0) None []).
  left. reflexivity.
Defined.

(** C7 on the code.  Thread 0 has submitted a callable with priority 5 to
    [pool2], below the bound, and [addTask] has returned: the entry is in
    the store and the variable that its closure refers to is gone.
    Worker 1 makes an attempt: it takes the entry and increments its
    counter from 0 to 1; the call of the closure then has undefined
    behaviour.  The callable is not executed and the attempt does not
    come to the decrement, whatever the number of nested calls
    allowed. *)
Theorem C7_attempt_on_a_queued_entry :
  let p := set_mtx (Some 1%nat) pool1 in
  let p_in :=
    increment 1%nat
      (unlock (set_taskQueue (stl_heap.pop comparePriority (taskQueue p)) p))
  in
  stop p = false
  ∧ taskQueue p = [(5, mkClosure 0)]
  ∧ locals p = [None]
  ∧ counter 1%nat p = 0
  ∧ counter 1%nat p_in = 1
  ∧ (∀ fuel, invoke (run fuel 1%nat) (mkClosure 0) p_in = Undefined)
  ∧ (∀ fuel, tryToWork (S fuel) 1%nat p = Undefined)
  ∧ (∀ fuel r p', tryToWork fuel 1%nat p ≠ Ok r p').
Proof.
  cbv zeta.
  assert (∀ fuel, tryToWork (S fuel) 1%nat (set_mtx (Some 1%nat) pool1)
                  = Undefined) as Hund.
  { intros fuel. apply tryToWork_out_of_scope; [reflexivity..|].
    unfold out_of_scope. vm_compute. by repeat constructor. }
  split_and!; try reflexivity; try exact Hund.
  intros [|fuel] r p' H; [by vm_compute in H|]. by rewrite Hund in H.
Qed.

Lemma run_stopped_partial fuel tid a p :
  stop p = true →
  match run fuel tid a p with
  | Ok _ p' | Raised _ p' => p' = p
  | OutOfFuel => True
  | Deadlock | Undefined => False
  end.
Proof.
  intros Hstop. revert a. induction fuel as [|n IH]; intros a.
  - by destruct a.
  - rewrite run_eq. destruct a as [v|e|pr f k|fut k]; try done.
    + rewrite addTask_eq, Hstop. simpl. apply IH.
    + rewrite waitForTask_eq, Hstop. simpl. apply IH.
Qed.

Lemma run_stopped_total tid a p :
  stop p = true →
  ∃ n, ∀ fuel, (n ≤ fuel)%nat → ∃ o, finished (run fuel tid a p) = Some (o, p).
Proof.
  intros Hstop. induction a as [v|e|pr f _ k IH|fut k IH].
  - exists 0%nat. intros fuel _. rewrite run_eq. by eexists.
  - exists 0%nat. intros fuel _. rewrite run_eq. by eexists.
  - destruct (IH NoState) as [n Hn]. exists (S n). intros [|fuel] Hf; [lia|].
    rewrite run_eq, addTask_eq, Hstop. simpl. apply Hn. lia.
  - destruct (IH 0) as [n Hn]. exists (S n). intros [|fuel] Hf; [lia|].
    rewrite run_eq, waitForTask_eq, Hstop. simpl. apply Hn. lia.
Qed.

(** C8.  On a stopped pool a task-execution attempt returns at once with
    the pool as it was: no entry is removed and none is executed.  The
    worker loop ends, and whatever a thread goes on to call, the pool
    stays as it is: the entries in the store and their shared states are
    never touched again. *)
Theorem C8_stopped_pool_takes_no_work fuel tid p :
  stop p = true →
  tryToWork fuel tid p = Ok true p
  ∧ workerLoop fuel tid p = Ok () p
  ∧ (∀ a, match run fuel tid a p with
          | Ok _ p' | Raised _ p' => p' = p
          | OutOfFuel => True
          | Deadlock | Undefined => False
          end)
  ∧ (∀ a, ∃ n, ∀ fuel', (n ≤ fuel')%nat →
          ∃ o, finished (run fuel' tid a p) = Some (o, p)).
Proof.
  intros Hstop. split_and!.
  - by rewrite tryToWork_eq, Hstop.
  - by rewrite workerLoop_eq, Hstop.
  - intros a. by apply run_stopped_partial.
  - intros a. by apply run_stopped_total.
Qed.

Lemma C8_witness :
  let p := ThreadPool_delete (set_mtx (Some 1%nat) pool3) in
  tryToWork 4 1%nat p = Ok true p ∧ length (taskQueue p) = 3%nat.
Proof.
  split; [|reflexivity].
  apply (C8_stopped_pool_takes_no_work 4 1%nat
           (ThreadPool_delete (set_mtx (Some 1%nat) pool3))).
  reflexivity.
Defined.

(** The call of a closure with the mutex free does not block on it, and
    leaves it free if it returns. *)
Lemma invoke_mutex fuel tid t p :
  mtx p = None →
  ensures False (λ _ p', mtx p' = None) (invoke (run fuel tid) t p).
Proof.
  intros Hm. unfold invoke.
  destruct (locals p !! pFunc t) as [[t'|]|]; [|done|done].
  destruct (exec_mutex fuel) as (Hrun & _).
  specialize (Hrun tid (boundFunc t') p Hm).
  by destruct (run fuel tid (boundFunc t') p).
Qed.

(** C9.  An attempt that takes an entry, entered with the mutex owned by
    the caller's lock: the mutex has been released when the closure of
    the entry is called, and the attempt takes it again, for the
    notification, only with the state in which that call returns.  The
    call does not block on the mutex and, if it returns, leaves it free,
    so that the attempt takes it at once and releases it; a submission by
    the thread in the state in which the closure is called does not block
    either.  The attempt never blocks on the mutex. *)
Theorem C9_mutex_released_around_the_call fuel tid p :
  stop p = false → stl_heap.empty (taskQueue p) = false →
  mtx p = Some tid →
  ∃ pr t,
    let p_in :=
      increment tid
        (unlock (set_taskQueue (stl_heap.pop comparePriority (taskQueue p)) p))
    in
    stl_heap.top (taskQueue p) = Some (pr, t)
    ∧ mtx p_in = None
    ∧ tryToWork (S fuel) tid p
      = bind (invoke (run fuel tid) t p_in)
             (fun _ p_out => bind (lock tid (decrement tid p_out))
                                  (fun _ p' => Ok false (unlock p')))
    ∧ invoke (run fuel tid) t p_in ≠ Deadlock
    ∧ (∀ p_out,
         invoke (run fuel tid) t p_in = Ok () p_out →
         mtx p_out = None
         ∧ lock tid (decrement tid p_out)
           = Ok () (set_mtx (Some tid) (decrement tid p_out))
         ∧ tryToWork (S fuel) tid p
           = Ok false (unlock (set_mtx (Some tid) (decrement tid p_out))))
    ∧ (∀ fuel' priority f, addTask fuel' tid priority f p_in ≠ Deadlock)
    ∧ tryToWork (S fuel) tid p ≠ Deadlock.
Proof.
  intros Hstop Hne Hm.
  destruct (top_nonempty _ Hne) as [[pr t] Htop]. exists pr, t. cbv zeta.
  set (p_in := increment tid _).
  assert (mtx p_in = None) as Hin by done.
  pose proof (invoke_mutex fuel tid t p_in Hin) as Hinv.
  pose proof (tryToWork_takes fuel tid p pr t Hstop Hne Htop) as Htakes.
  fold p_in in Htakes.
  split_and!; [done|done|done| | | |].
  - intros Hr. by rewrite Hr in Hinv.
  - intros p_out Hr. rewrite Hr in Hinv. simpl in Hinv.
    assert (lock tid (decrement tid p_out)
            = Ok () (set_mtx (Some tid) (decrement tid p_out))) as Hl.
    { unfold lock. simpl. by rewrite Hinv. }
    split_and!; [done|done|]. rewrite Htakes, Hr. simpl. by rewrite Hl.
  - intros fuel' priority f Hr.
    destruct (exec_mutex fuel') as (_ & Hadd & _).
    specialize (Hadd tid priority f p_in Hin). by rewrite Hr in Hadd.
  - intros Hr. destruct (exec_mutex (S fuel)) as (_ & _ & _ & Htry).
    specialize (Htry tid p Hm). by rewrite Hr in Htry.
Qed.

Lemma C9_witness :
  ∃ pr t,
    stl_heap.top (taskQueue pool3) = Some (pr, t) ∧ pr = 5
    ∧ mtx (increment 1%nat
             (unlock (set_taskQueue
                        (stl_heap.pop comparePriority (taskQueue pool3))
                        (set_mtx (Some 1%nat) pool3)))) = None
    ∧ tryToWork 3 1%nat (set_mtx (Some 1%nat) pool3) ≠ Deadlock.
Proof.
  destruct (C9_mutex_released_around_the_call 2 1%nat
              (set_mtx (Some 1%nat) pool3))
    as (pr & t & Htop & Hin & _ & _ & _ & _ & Hnd).
  - reflexivity.
  - reflexivity.
  - reflexivity.
  - exists pr, t. split_and!; [exact Htop| |exact Hin|exact Hnd].
    vm_compute in Htop. by injection Htop as <- _.
Defined.

(** C10.  An attempt on a store that is not empty, in a pool that is not
    stopped: exactly one entry leaves the store, one of greatest priority,
    and the entries that stay are the other ones, with their priorities
    and their closures.  In the state in which the closure of the entry is
    called the flag, the configuration, the workers, the shared states,
    the variables and the counters of the other threads are what they
    were.  The attempt goes on with the state in which that call returns,
    and what it does then leaves the store alone; if the attempt returns,
    the flag, the configuration, the workers and the counters of the
    other threads are still what they were. *)
Theorem C10_attempt_removes_one_entry fuel tid p :
  stop p = false → heap_ordered (taskQueue p) →
  stl_heap.empty (taskQueue p) = false →
  ∃ pr t,
    let p_in :=
      increment tid
        (unlock (set_taskQueue (stl_heap.pop comparePriority (taskQueue p)) p))
    in
    stl_heap.top (taskQueue p) = Some (pr, t)
    ∧ (∀ e, e ∈ taskQueue p → e.1 ≤ pr)
    ∧ taskQueue p ≡ₚ (pr, t) :: taskQueue p_in
    ∧ length (taskQueue p) = S (length (taskQueue p_in))
    ∧ (stop p_in = stop p ∧ workers p_in = workers p
       ∧ maxRecursion p_in = maxRecursion p
       ∧ threadNumber p_in = threadNumber p ∧ shared p_in = shared p
       ∧ locals p_in = locals p
       ∧ ∀ t', t' ≠ tid → RecursionMap p_in !! t' = RecursionMap p !! t')
    ∧ tryToWork (S fuel) tid p
      = bind (invoke (run fuel tid) t p_in)
             (fun _ p_out => bind (lock tid (decrement tid p_out))
                                  (fun _ p' => Ok false (unlock p')))
    ∧ (∀ p_out,
         taskQueue (unlock (set_mtx (Some tid) (decrement tid p_out)))
         = taskQueue p_out)
    ∧ (∀ r p', tryToWork (S fuel) tid p = Ok r p' →
         stop p' = stop p ∧ workers p' = workers p
         ∧ maxRecursion p' = maxRecursion p
         ∧ threadNumber p' = threadNumber p
         ∧ ∀ t', t' ≠ tid → RecursionMap p' !! t' = RecursionMap p !! t').
Proof.
  intros Hstop Hheap Hne.
  destruct (top_nonempty _ Hne) as [[pr t] Htop]. exists pr, t. cbv zeta.
  destruct (heap_ordered_pop _ _ Hheap Htop) as [_ Hperm].
  split_and!; try done.
  - intros e He. apply (heap_ordered_top _ _ _ Hheap Htop He).
  - simpl. by rewrite Hperm at 1.
  - intros t' Ht'. simpl. by rewrite lookup_insert_ne.
  - by apply (tryToWork_takes _ _ _ pr).
  - intros r p' Hr. destruct (exec_frame (S fuel)) as (_ & _ & _ & Htry).
    specialize (Htry tid p). rewrite Hr in Htry.
    destruct Htry as (?&?&?&?&?&_). done.
Qed.

Lemma C10_witness :
  ∃ pr t,
    stl_heap.top (taskQueue pool3) = Some (pr, t) ∧ pr = 5
    ∧ (∀ e, e ∈ taskQueue pool3 → e.1 ≤ 5)
    ∧ (stl_heap.pop comparePriority (taskQueue pool3)).*1 = [3; 1].
Proof.
  destruct (C10_attempt_removes_one_entry 2 1%nat
              (set_mtx (Some 1%nat) pool3))
    as (pr & t & Htop & Hmax & _).
  - reflexivity.
  - apply (is_heapb_correct fst). vm_compute. reflexivity.
  - reflexivity.
  - vm_compute in Htop. injection Htop as <- <-.
    exists 5, (mkClosure 1). split_and!; [reflexivity|reflexivity|exact Hmax|].
    vm_compute. reflexivity.
Defined.

(** * Further properties of the member functions *)

(** ** Fields that the primitive operations leave alone *)

Lemma touch_fields tid p :
  stop (touch tid p) = stop p ∧ mtx (touch tid p) = mtx p
  ∧ taskQueue (touch tid p) = taskQueue p ∧ shared (touch tid p) = shared p
  ∧ maxRecursion (touch tid p) = maxRecursion p
  ∧ locals (touch tid p) = locals p.
Proof. unfold touch. by destruct (RecursionMap p !! tid). Qed.

Lemma unlock_lock tid p : mtx p = None → unlock (set_mtx (Some tid) p) = p.
Proof. destruct p. simpl. by intros ->. Qed.

Lemma insert_snoc {A} (l : list A) x y : <[length l := y]> (l ++ [x]) = l ++ [y].
Proof. by rewrite insert_app_r_alt, Nat.sub_diag. Qed.

(** ** Submission below the bound *)

(** The state after a submission that is queued. *)
Lemma addTask_queued fuel tid priority f p :
  stop p = false → mtx p = None → counter tid p < maxRecursion p →
  addTask fuel tid priority f p
  = Ok (SharedState (length (shared p)))
       (set_taskQueue
          (stl_heap.emplace comparePriority
             (priority, mkClosure (length (locals p))) (taskQueue p))
          (set_locals (locals p ++ [None])
             (set_shared (shared p ++ [Ready (Failure broken_promise)])
                (touch tid p)))).
Proof.
  intros Hstop Hm Hlt. rewrite addTask_eq, Hstop. cbv zeta.
  destruct (touch_fields tid p) as (Hs & Hm0 & Hq & Hsh & Hmax & Hl).
  rewrite counter_touch, Hmax.
  destruct (Z.ltb_spec (counter tid p) (maxRecursion p)); [|lia].
  unfold make_shared_state, declare_pFunc, lock. simpl. rewrite Hm0, Hm.
  simpl. rewrite Hsh, Hq, Hl. f_equal.
  unfold end_of_scope. simpl. rewrite list_lookup_middle by done.
  simpl. rewrite list_lookup_middle by done.
  unfold make_ready, unlock, set_mtx, set_taskQueue, set_shared, set_locals.
  simpl. by rewrite Hm0, Hm, !insert_snoc.
Qed.

(** X1.  A submission by a thread below the bound, to a running pool:
    [addTask] returns a future on a new shared state, and the store has
    gained one entry, with the priority, and is a heap again.  The
    callable has not been executed.  The variable [pFunc] of the call is
    gone when [addTask] has returned, and the packaged task with it: the
    future is ready on return and holds the broken promise, and the
    closure of the new entry refers to a variable that no longer exists,
    so that calling it is undefined.  The flag, the mutex, the counter and
    the other shared states are as before. *)
Theorem X1_submission_below_the_bound_is_queued fuel tid priority f p :
  stop p = false → mtx p = None → counter tid p < maxRecursion p →
  heap_ordered (taskQueue p) →
  let c := length (shared p) in
  let a := length (locals p) in
  ∃ p',
    addTask fuel tid priority f p = Ok (SharedState c) p'
    ∧ taskQueue p' ≡ₚ (priority, mkClosure a) :: taskQueue p
    ∧ heap_ordered (taskQueue p')
    ∧ locals p' = locals p ++ [None]
    ∧ shared p' = shared p ++ [Ready (Failure broken_promise)]
    ∧ is_ready (SharedState c) p' = Some true
    ∧ (∀ exec, invoke exec (mkClosure a) p' = Undefined)
    ∧ stop p' = false ∧ mtx p' = None
    ∧ counter tid p' = counter tid p.
Proof.
  intros Hstop Hm Hlt Hheap c a. eexists. split; [by apply addTask_queued|].
  destruct (touch_fields tid p) as (Hs & Hm0 & Hq & Hsh & Hmax & Hl).
  destruct (heap_ordered_emplace (priority, mkClosure a) _ Hheap)
    as [Hheap' Hperm].
  simpl. fold c a. split_and!; try done.
  - by rewrite list_lookup_middle.
  - intros exec. unfold invoke. simpl. by rewrite list_lookup_middle.
  - by rewrite Hs.
  - by rewrite Hm0.
  - exact (counter_touch tid p).
Qed.

Lemma X1_witness :
  ∃ p', addTask 0 0%nat 4 (Return 1) pool3 = Ok (SharedState 3) p'
        ∧ (taskQueue p').*1 ≡ₚ [4; 5; 1; 3]
        ∧ shared p' !! 3%nat = Some (Ready (Failure broken_promise)).
Proof.
  destruct (X1_submission_below_the_bound_is_queued 0 0%nat 4 (Return 1) pool3)
    as (p' & Hret & Hperm & _ & _ & Hsh & _).
  - reflexivity.
  - reflexivity.
  - vm_compute. reflexivity.
  - apply (is_heapb_correct fst). vm_compute. reflexivity.
  - exists p'. split_and!; [exact Hret| |].
    + rewrite Hperm. vm_compute. reflexivity.
    + rewrite Hsh. vm_compute. reflexivity.
Defined.

(** ** Waiting *)

(** One iteration of the loop of [waitForTask] on a future that is not
    ready. *)
Lemma waitForTask_pending fuel tid c p :
  stop p = false → mtx p = None → shared p !! c = Some Pending →
  waitForTask (S fuel) tid (SharedState c) p
  = bind (tryToWork fuel tid (set_mtx (Some tid) p))
         (fun owns_lock p =>
            waitForTask fuel tid (SharedState c) (release owns_lock p)).
Proof.
  intros Hstop Hm Hc. rewrite waitForTask_eq, Hstop.
  unfold lock. rewrite Hm. simpl. by rewrite Hc.
Qed.

(** [waitForTask] on a future that is ready, in a running pool. *)
Lemma waitForTask_ready fuel tid c o p :
  stop p = false → mtx p = None → shared p !! c = Some (Ready o) →
  waitForTask fuel tid (SharedState c) p
  = deliver o (set_shared (<[c := Retrieved]> (shared p)) p).
Proof.
  intros Hstop Hm Hc. rewrite waitForTask_eq, Hstop.
  unfold lock. rewrite Hm. simpl. rewrite Hc. simpl. rewrite ?Hc.
  destruct p; simpl in *; subst. by destruct o.
Qed.

(** X2.  Submission and wait by one thread, below the bound, in a running
    pool: the future that [addTask] returned is ready with the broken
    promise, so [waitForTask] makes no attempt and exits by
    [std::future_error]; the callable is not executed, its entry is still
    in the store, and the mutex is free. *)
Theorem X2_wait_after_a_queued_submission fuel fuel' tid priority f p :
  stop p = false → mtx p = None → counter tid p < maxRecursion p →
  let c := length (shared p) in
  let a := length (locals p) in
  ∃ p1 p2,
    addTask fuel tid priority f p = Ok (SharedState c) p1
    ∧ waitForTask fuel' tid (SharedState c) p1 = Raised broken_promise p2
    ∧ taskQueue p2 = taskQueue p1
    ∧ (priority, mkClosure a) ∈ taskQueue p2
    ∧ shared p2 = shared p ++ [Retrieved]
    ∧ locals p2 = locals p ++ [None]
    ∧ mtx p2 = None ∧ stop p2 = false
    ∧ counter tid p2 = counter tid p.
Proof.
  intros Hstop Hm Hlt c a.
  destruct (touch_fields tid p) as (Hs & Hm0 & Hq & Hsh & Hmax & Hl).
  eexists. eexists. split; [by apply addTask_queued|].
  split; [|split_and!].
  - rewrite (waitForTask_ready _ _ _ (Failure broken_promise)); simpl;
      [reflexivity|by rewrite Hs|by rewrite Hm0|].
    by apply list_lookup_middle.
  - reflexivity.
  - simpl. rewrite emplace_perm. by left.
  - simpl. apply insert_snoc.
  - reflexivity.
  - simpl. by rewrite Hm0.
  - simpl. by rewrite Hs.
  - exact (counter_touch tid p).
Qed.

Lemma X2_witness :
  ∃ p1 p2,
    addTask 0 0%nat 5 (Return 4) pool2 = Ok (SharedState 0) p1
    ∧ waitForTask 3 0%nat (SharedState 0) p1 = Raised broken_promise p2
    ∧ taskQueue p2 = [(5, mkClosure 0)].
Proof.
  destruct (X2_wait_after_a_queued_submission 0 3 0%nat 5 (Return 4) pool2)
    as (p1 & p2 & Hadd & Hwait & Hq & _).
  - reflexivity.
  - reflexivity.
  - vm_compute. reflexivity.
  - exists p1, p2. split_and!; [exact Hadd|exact Hwait|].
    rewrite Hq. vm_compute in Hadd. injection Hadd as <-. reflexivity.
Defined.

(** X4.  A thread waits for a future that is not ready while the store is
    empty, in a running pool: whatever the number of iterations, the loop
    of [waitForTask] has not ended.  Nothing the thread does itself makes
    the future ready: the call ends only when another thread completes
    the future or stops the pool. *)
Theorem X4_wait_with_nothing_to_do_does_not_return fuel tid c p :
  stop p = false → mtx p = None →
  stl_heap.empty (taskQueue p) = true → shared p !! c = Some Pending →
  waitForTask fuel tid (SharedState c) p = OutOfFuel.
Proof.
  intros Hstop Hm Hq Hc. induction fuel as [|fuel IH].
  - rewrite waitForTask_eq, Hstop. unfold lock. rewrite Hm. simpl.
    by rewrite Hc.
  - rewrite waitForTask_pending by done.
    rewrite tryToWork_eq. simpl. rewrite Hstop, Hq. simpl.
    by rewrite unlock_lock.
Qed.

Lemma X4_witness :
  waitForTask 100 0%nat (SharedState 0) pool_empty = OutOfFuel.
Proof.
  apply (X4_wait_with_nothing_to_do_does_not_return 100 0%nat 0%nat pool_empty);
    reflexivity.
Defined.

(** X5.  A future can be waited for once: after [waitForTask] has returned
    the value of a future (or rethrown its failure), the future has given
    up its shared state, and a second [waitForTask] on it in the running
    pool has undefined behaviour. *)
Theorem X5_second_wait_is_undefined fuel fuel' tid c o p :
  stop p = false → mtx p = None → shared p !! c = Some (Ready o) →
  ∃ p',
    waitForTask fuel tid (SharedState c) p = deliver o p'
    ∧ stop p' = false ∧ mtx p' = None
    ∧ is_ready (SharedState c) p' = None
    ∧ waitForTask fuel' tid (SharedState c) p' = Undefined.
Proof.
  intros Hstop Hm Hc. eexists. split; [by apply waitForTask_ready|].
  assert (c < length (shared p))%nat by by eapply lookup_lt_Some.
  split_and!; try done.
  - unfold is_ready. simpl. by rewrite list_lookup_insert_eq.
  - rewrite waitForTask_eq. simpl. rewrite Hstop. unfold lock. simpl.
    rewrite Hm. simpl. by rewrite list_lookup_insert_eq.
Qed.

Lemma X5_witness :
  ∃ p', waitForTask 0 0%nat (SharedState 0) pool_done = Ok 7 p'
        ∧ waitForTask 9 0%nat (SharedState 0) p' = Undefined.
Proof.
  destruct (X5_second_wait_is_undefined 0 9 0%nat 0%nat (Value 7) pool_done)
    as (p' & Hw & _ & _ & _ & Hu); [reflexivity..|].
  exists p'. split; [exact Hw|exact Hu].
Defined.

(** ** The worker loop *)

(** X7.  A worker in its loop, in a running pool in which no thread is
    inside [addTask].  While the store is empty the worker makes one
    attempt after the other and does not leave the loop.  When the store
    holds an entry, the first attempt takes it and calls its closure,
    which refers to a variable that is gone: the behaviour of the worker
    is undefined. *)
Theorem X7_worker_on_a_running_pool tid p :
  stop p = false → mtx p = None → out_of_scope p →
  (stl_heap.empty (taskQueue p) = true →
   ∀ fuel, workerLoop fuel tid p = OutOfFuel)
  ∧ (stl_heap.empty (taskQueue p) = false →
     ∀ fuel, workerLoop (S (S fuel)) tid p = Undefined).
Proof.
  intros Hstop Hm Hp. split.
  - intros Hq fuel. induction fuel as [|fuel IH];
      rewrite workerLoop_eq, Hstop; [done|].
    unfold lock. rewrite Hm. simpl.
    rewrite tryToWork_eq. simpl. rewrite Hstop, Hq. simpl.
    by rewrite unlock_lock.
  - intros Hq fuel. rewrite workerLoop_eq, Hstop.
    unfold lock. rewrite Hm. cbn [bind].
    by rewrite tryToWork_out_of_scope.
Qed.

Lemma X7_witness :
  workerLoop 50 1%nat pool2 = OutOfFuel
  ∧ workerLoop 2 1%nat pool1 = Undefined.
Proof.
  split.
  - apply (X7_worker_on_a_running_pool 1%nat pool2); try reflexivity.
    unfold out_of_scope. vm_compute. constructor.
  - apply (X7_worker_on_a_running_pool 1%nat pool1); try reflexivity.
    unfold out_of_scope. vm_compute. by repeat constructor.
Defined.

(** ** Construction *)

Lemma spawn_fold get_id l p :
  workers (foldl (spawn get_id) p l) = workers p ++ (get_id <$> l)
  ∧ maxRecursion (foldl (spawn get_id) p l) = maxRecursion p
  ∧ shared (foldl (spawn get_id) p l) = shared p
  ∧ ∀ t, RecursionMap (foldl (spawn get_id) p l) !! t
         = match RecursionMap p !! t with
           | Some d => Some d
           | None => if bool_decide (t ∈ get_id <$> l) then Some 0 else None
           end.
Proof.
  revert p. induction l as [|i l IH]; intros p.
  - cbn [foldl]. rewrite fmap_nil, app_nil_r. split_and!; try done.
    intros t. destruct (RecursionMap p !! t); [done|].
    rewrite bool_decide_eq_false_2; [done|]. by intros ?%elem_of_nil.
  - destruct (IH (spawn get_id p i)) as (Hw & Hmr & Hsh & Hmap).
    cbn [foldl]. rewrite Hw, Hmr, Hsh, fmap_cons.
    split_and!; [simpl; by rewrite <-app_assoc|done|done|].
    intros t. rewrite Hmap. unfold spawn at 1, map_emplace.
    cbn [RecursionMap].
    destruct (decide (t = get_id i)) as [->|Hne].
    + destruct (RecursionMap p !! get_id i) as [d|] eqn:Hd.
      * by rewrite Hd.
      * rewrite lookup_insert_eq, bool_decide_eq_true_2; [done|]. by left.
    + assert (match RecursionMap p !! get_id i with
              | Some _ => RecursionMap p
              | None => <[get_id i:=0]> (RecursionMap p)
              end !! t = RecursionMap p !! t) as ->.
      { destruct (RecursionMap p !! get_id i); [done|].
        by rewrite lookup_insert_ne. }
      destruct (RecursionMap p !! t); [done|].
      apply (f_equal (λ b : bool, if b then Some 0 else None)).
      apply bool_decide_ext. rewrite elem_of_cons.
      split; [by right|by intros [?|?]].
Qed.

(** X6.  The pool after construction: it is running with an empty store
    and a free mutex; its workers are the threads that were created, one
    for each number below [threadNumber], in the order of their creation;
    a worker count other than zero is the number of workers;
    [maxRecursion] is the argument, or 5; the recursion map holds a zero
    counter for each worker and for the constructing thread, and for no
    other thread. *)
Theorem X6_pool_after_construction hc get_id self thread depth shared0 :
  let p := ThreadPool_new hc get_id self thread depth shared0 in
  stop p = false ∧ taskQueue p = [] ∧ invariant p
  ∧ workers p = get_id <$> seq 0 (Z.to_nat (threadNumber p))
  ∧ (∀ n, thread = Some n → n ≠ 0 → threadNumber p = n)
  ∧ maxRecursion p = default 5 depth
  ∧ shared p = shared0
  ∧ (∀ t, RecursionMap p !! t
          = if bool_decide (t ∈ workers p ∨ t = self) then Some 0 else None).
Proof.
  intros p.
  destruct (ThreadPool_new_invariants hc get_id self thread depth shared0)
    as (Hstop & Hm & Hq & Hheap & Hu & _).
  fold p in Hstop, Hm, Hq, Hheap, Hu.
  split_and!; [done|done|done|..]; clear Hstop Hm Hq Hheap Hu;
    subst p; unfold ThreadPool_new; cbv zeta;
    set (n := if default hc thread =? 0 then hc else default hc thread);
    match goal with |- context [foldl (spawn get_id) ?p0 ?l] =>
      destruct (spawn_fold get_id l p0) as (Hw & Hmr & Hsh & Hmap);
      destruct (spawn_workers get_id l p0) as (_ & Ht & _);
      set (p1 := foldl (spawn get_id) p0 l) in *
    end;
    cbn [workers threadNumber maxRecursion shared RecursionMap
         set_RecursionMap app] in *.
  - by rewrite Hw, Ht.
  - intros m -> Hm0. rewrite Ht. subst n. simpl. by destruct (Z.eqb_spec m 0).
  - done.
  - done.
  - intros t. rewrite Hw. unfold map_emplace.
    pose proof (Hmap self) as Hself. pose proof (Hmap t) as Ht'.
    rewrite lookup_empty in Hself, Ht'.
    destruct (decide (t = self)) as [->|Hne].
    + rewrite (bool_decide_eq_true_2 (_ ∨ self = self)) by by right.
      destruct (RecursionMap p1 !! self) as [d|] eqn:Hd.
      * rewrite Hd. by case_bool_decide.
      * by rewrite lookup_insert_eq.
    + assert (match RecursionMap p1 !! self with
              | Some _ => RecursionMap p1
              | None => <[self:=0]> (RecursionMap p1)
              end !! t = RecursionMap p1 !! t) as ->.
      { destruct (RecursionMap p1 !! self); [done|].
        by rewrite lookup_insert_ne. }
      rewrite Ht'.
      apply (f_equal (λ b : bool, if b then Some 0 else None)).
      apply bool_decide_ext. split; [by left|by intros [?|?]].
Qed.

(** ** What every program of calls keeps *)

(** X8.  Whatever program of submissions and waits a thread executes on a
    pool whose mutex is free, whose store is a heap and whose counters are
    [unsigned int], while no thread is inside [addTask]: the thread does
    not block on the mutex, and when the program ends, by a return or by
    an exception, these facts hold again, the counter of the thread is
    what it was and the pool is stopped only if it was. *)
Theorem X8_programs_keep_the_invariant fuel tid a p :
  invariant p → out_of_scope p →
  match run fuel tid a p with
  | Ok _ p' | Raised _ p' =>
      invariant p' ∧ out_of_scope p'
      ∧ counter tid p' = counter tid p ∧ stop p' = stop p
  | Deadlock => False
  | Undefined | OutOfFuel => True
  end.
Proof.
  intros (Hm & Hh & Hu) Hp.
  pose proof (run_invariants fuel tid a p Hm Hh Hu) as H.
  destruct (exec_scope fuel) as (Hs & _). specialize (Hs tid a p Hp).
  destruct (run fuel tid a p); simpl in *; try done;
    destruct H as (?&?&?&?&?); by destruct Hs.
Qed.

Lemma X8_witness :
  match run 10 0%nat scenario pool2 with
  | Raised e p' => e = broken_promise ∧ invariant p' ∧ out_of_scope p'
  | _ => False
  end.
Proof.
  pose proof (X8_programs_keep_the_invariant 10 0%nat scenario pool2) as H.
  destruct (run 10 0%nat scenario pool2) as [|e p'| | |] eqn:Hr; try done.
  split.
  - vm_compute in Hr. by injection Hr as <- _.
  - assert (invariant p' ∧ out_of_scope p'
            ∧ counter 0%nat p' = counter 0%nat pool2
            ∧ stop p' = stop pool2) as (Hi & Hs & _); [|done].
    apply H.
    + split_and!.
      * reflexivity.
      * apply (is_heapb_correct fst). vm_compute. reflexivity.
      * apply (bool_decide_unpack _). vm_compute. exact I.
    + unfold out_of_scope. vm_compute. constructor.
Defined.

(** X9.  A thread whose counter has reached [maxRecursion] pushes
    nothing, whatever program it executes (the counter not wrapping
    around): its submissions are executed in place, and so are those of
    the entries it executes while it waits; every entry in the store
    afterwards was there before.  With [maxRecursionDepth = 0] every
    thread is in this case from the start, and the store stays empty. *)
Theorem X9_a_thread_at_the_bound_pushes_nothing fuel tid a p :
  at_bound fuel tid p →
  match run fuel tid a p with
  | Ok _ p' | Raised _ p' =>
      taskQueue p' ⊆+ taskQueue p ∧ (taskQueue p = [] → taskQueue p' = [])
  | Deadlock | Undefined | OutOfFuel => True
  end.
Proof.
  intros Hb. destruct (exec_at_bound fuel) as (Hrun & _).
  specialize (Hrun tid a p Hb).
  destruct (run fuel tid a p); simpl in *; try done;
    (split; [done|]); intros Hq; rewrite Hq in Hrun;
    by apply submseteq_nil_r.
Qed.

Lemma X9_witness :
  match run 8 0%nat scenario pool_inline with
  | Ok v p' => v = 47 ∧ taskQueue p' = []
  | _ => False
  end.
Proof.
  pose proof (X9_a_thread_at_the_bound_pushes_nothing 8 0%nat scenario
                pool_inline) as H.
  destruct (run 8 0%nat scenario pool_inline) as [v p'| | | |] eqn:Hr;
    try done.
  split.
  - vm_compute in Hr. by injection Hr as <- _.
  - apply H; [|reflexivity]. split_and!.
    + apply (bool_decide_unpack _). vm_compute. exact I.
    + apply (is_heapb_correct fst). vm_compute. reflexivity.
    + vm_compute. discriminate.
    + vm_compute. reflexivity.
Defined.

(** X12.  No call changes the stop flag, [maxRecursion], [threadNumber],
    the workers or the counter of a thread other than the one that makes
    the call, and no shared state disappears, whatever program of
    submissions and waits the thread executes. *)
Theorem X12_calls_leave_the_configuration_alone fuel tid a p :
  match run fuel tid a p with
  | Ok _ p' | Raised _ p' =>
      stop p' = stop p ∧ maxRecursion p' = maxRecursion p
      ∧ threadNumber p' = threadNumber p ∧ workers p' = workers p
      ∧ (∀ t, t ≠ tid → RecursionMap p' !! t = RecursionMap p !! t)
      ∧ (length (shared p) ≤ length (shared p'))%nat
  | Deadlock | Undefined | OutOfFuel => True
  end.
Proof.
  destruct (exec_frame fuel) as (Hrun & _). specialize (Hrun tid a p).
  destruct (run fuel tid a p); simpl in *; try done;
    by destruct Hrun as (?&?&?&?&?&?&_).
Qed.

(** X16.  A program of submissions and waits that ends, by a return or by
    an exception, and was started while no thread was inside [addTask],
    has taken no entry off the store: every entry that was in the store
    is still there.  (An attempt that takes an entry calls a closure
    whose variable is gone, and does not end.) *)
Theorem X16_calls_that_end_take_no_entry fuel tid a p :
  out_of_scope p →
  match run fuel tid a p with
  | Ok _ p' | Raised _ p' =>
      taskQueue p ⊆+ taskQueue p'
      ∧ (length (taskQueue p) ≤ length (taskQueue p'))%nat
  | Deadlock | Undefined | OutOfFuel => True
  end.
Proof.
  intros Hp. destruct (exec_scope fuel) as (Hs & _).
  specialize (Hs tid a p Hp).
  destruct (run fuel tid a p); simpl in *; try done;
    destruct Hs as [_ Hq]; (split; [done|]); by apply submseteq_length.
Qed.

Lemma X16_witness :
  match run 10 0%nat scenario pool1 with
  | Raised _ p' => taskQueue pool1 ⊆+ taskQueue p'
                   ∧ length (taskQueue p') = 3%nat
  | _ => False
  end.
Proof.
  pose proof (X16_calls_that_end_take_no_entry 10 0%nat scenario pool1) as H.
  destruct (run 10 0%nat scenario pool1) as [|e p'| | |] eqn:Hr; try done.
  split.
  - apply H. unfold out_of_scope. vm_compute. by repeat constructor.
  - vm_compute in Hr. by injection Hr as _ <-.
Defined.

(** ** The store as a priority queue *)

(** X10.  The store neither loses nor repeats an entry: as many successive
    removals as the store has entries take every entry once, and they
    take them in the order of the priorities, the greatest first; further
    removals find the store empty. *)
Theorem X10_store_returns_every_entry_once n q :
  heap_ordered q → (length q ≤ n)%nat →
  drain n q ≡ₚ q
  ∧ StronglySorted (λ a b, b.1 ≤ a.1) (drain n q)
  ∧ drain n q = drain (length q) q.
Proof.
  intros Hq Hn. split_and!; [by apply drain_all|by apply drain_sorted|].
  revert q Hq Hn. induction n as [|n IH]; intros q Hq Hn.
  - by destruct q; [|simpl in Hn; lia].
  - destruct q as [|e q]; [done|].
    set (l := e :: q) in *. cbn [drain].
    change (length l) with (S (length q)). cbn [drain].
    destruct (stl_heap.top l) as [e'|] eqn:Htop; [|done].
    destruct (heap_ordered_pop _ _ Hq Htop) as [Hq' Hperm].
    assert (length (stl_heap.pop comparePriority l) = length q) as Hlen.
    { apply Permutation_length in Hperm. simpl in Hperm. lia. }
    f_equal. rewrite <-Hlen. apply IH; [done|]. simpl in Hn. lia.
Qed.

Lemma X10_witness :
  (drain 7 (taskQueue pool3)).*1 = [5; 3; 1].
Proof.
  destruct (X10_store_returns_every_entry_once 7 (taskQueue pool3))
    as (_ & _ & ->).
  - apply (is_heapb_correct fst). vm_compute. reflexivity.
  - vm_compute. lia.
  - vm_compute. reflexivity.
Defined.

(** X11.  A submission below the bound with a priority greater than that
    of every entry in the store becomes the first entry of the store, the
    next one that an attempt takes.  Otherwise, when some entry has a
    priority that is not smaller, the first entry stays what it was, and
    its priority is not smaller than the new one. *)
Theorem X11_a_greater_priority_overtakes fuel tid priority f p :
  stop p = false → mtx p = None → counter tid p < maxRecursion p →
  heap_ordered (taskQueue p) →
  let c := length (shared p) in
  let a := length (locals p) in
  ∃ p',
    addTask fuel tid priority f p = Ok (SharedState c) p'
    ∧ ((∀ e, e ∈ taskQueue p → e.1 < priority) →
       stl_heap.top (taskQueue p') = Some (priority, mkClosure a))
    ∧ (∀ e, e ∈ taskQueue p → priority ≤ e.1 →
       ∃ e', stl_heap.top (taskQueue p) = Some e'
             ∧ stl_heap.top (taskQueue p') = Some e'
             ∧ priority ≤ e'.1).
Proof.
  intros Hstop Hm Hlt Hheap c a. eexists. split; [by apply addTask_queued|].
  fold c a. simpl.
  destruct (heap_ordered_emplace (priority, mkClosure a) _ Hheap)
    as [Hheap' Hperm].
  split.
  - intros Hall.
    set (q' := stl_heap.emplace _ _ _) in *.
    assert (∃ e', stl_heap.top q' = Some e') as [e' Htop].
    { unfold stl_heap.top. destruct q'; [|by eexists].
      by apply Permutation_nil_cons in Hperm. }
    assert (e' ∈ q') as Hin.
    { unfold stl_heap.top in Htop. by eapply list_elem_of_lookup_2. }
    rewrite Hperm in Hin. rewrite Htop. f_equal.
    apply elem_of_cons in Hin as [->|Hin]; [done|].
    specialize (Hall _ Hin).
    assert ((priority, mkClosure a).1 ≤ e'.1) as Hle.
    { apply (heap_ordered_top _ _ _ Hheap' Htop). rewrite Hperm. by left. }
    simpl in Hle. lia.
  - intros e He Hge.
    assert (∃ e', stl_heap.top (taskQueue p) = Some e') as [e' Htop].
    { unfold stl_heap.top. destruct (taskQueue p); [|by eexists].
      by apply elem_of_nil in He. }
    pose proof (heap_ordered_top _ _ _ Hheap Htop He) as Hle.
    exists e'. split_and!; [done| |lia].
    apply emplace_first; [done|].
    rewrite comparePriority_key. simpl. apply Z.ltb_ge. lia.
Qed.

Lemma X11_witness :
  ∃ p', addTask 0 0%nat 5 (Return 1) pool3 = Ok (SharedState 3) p'
        ∧ stl_heap.top (taskQueue p') = Some (5, mkClosure 1)
        ∧ (taskQueue p').*1 = [5; 5; 3; 1].
Proof.
  destruct (X11_a_greater_priority_overtakes 0 0%nat 5 (Return 1) pool3)
    as (p' & Hret & _ & Hold).
  - reflexivity.
  - reflexivity.
  - vm_compute. reflexivity.
  - apply (is_heapb_correct fst). vm_compute. reflexivity.
  - destruct (Hold (5, mkClosure 1)) as (e' & Htop & Htop' & _).
    + vm_compute. by left.
    + simpl. lia.
    + exists p'. split_and!; [exact Hret| |].
      * rewrite Htop'. rewrite <-Htop. reflexivity.
      * vm_compute in Hret. injection Hret as <-. vm_compute. reflexivity.
Defined.

(** ** Submission at the bound *)

(** X15.  A submission by a thread whose counter has reached
    [maxRecursion], to a pool that is not stopped: the callable is
    evaluated by the submitting thread inside the call, starting with the
    store as it was; when it returns [v], [addTask] returns a future whose
    shared state is ready and holds [v], and the store is as the callable
    left it: the submission itself adds no entry.  Nor does the callable,
    through what it submits or executes while waiting, as long as the
    counter cannot wrap around: every entry in the store after the call
    was there before. *)
Theorem X15_submission_at_the_bound_returns_the_value
    fuel tid priority f p v p' :
  stop p = false → maxRecursion p ≤ counter tid p →
  run fuel tid f (make_shared_state (touch tid p)).2 = Ok v p' →
  let c := length (shared p) in
  let p'' := make_ready c (Value v) p' in
  addTask (S fuel) tid priority f p = Ok (SharedState c) p''
  ∧ taskQueue (make_shared_state (touch tid p)).2 = taskQueue p
  ∧ taskQueue p'' = taskQueue p'
  ∧ shared p'' !! c = Some (Ready (Value v))
  ∧ is_ready (SharedState c) p'' = Some true
  ∧ (at_bound (S fuel) tid p → taskQueue p'' ⊆+ taskQueue p).
Proof.
  intros Hstop Hmax Hrun c p''.
  assert (length (shared (touch tid p)) = c) as Hc.
  { unfold touch. by destruct (RecursionMap p !! tid). }
  assert (shared p'' !! c = Some (Ready (Value v))) as Hready.
  { destruct (exec_frame fuel) as (Hf & _).
    specialize (Hf tid f (make_shared_state (touch tid p)).2).
    rewrite Hrun in Hf. destruct Hf as (_&_&_&_&_&Hlen&_).
    simpl in Hlen. rewrite length_app, Hc in Hlen. simpl in Hlen.
    apply list_lookup_insert_eq. lia. }
  assert (addTask (S fuel) tid priority f p = Ok (SharedState c) p'') as Hret.
  { rewrite addTask_eq, Hstop. cbv zeta.
    replace (counter tid (touch tid p) <? maxRecursion (touch tid p))
      with false.
    - unfold make_shared_state in *. simpl in *. rewrite Hc, Hrun. done.
    - symmetry. apply Z.ltb_ge. rewrite counter_touch.
      unfold touch. by destruct (RecursionMap p !! tid). }
  split_and!.
  - done.
  - unfold touch. by destruct (RecursionMap p !! tid).
  - done.
  - done.
  - unfold is_ready. by rewrite Hready.
  - intros Hb. destruct (exec_at_bound (S fuel)) as (_ & Hadd & _).
    specialize (Hadd tid priority f p Hb). by rewrite Hret in Hadd.
Qed.

Lemma X15_witness :
  ∃ p'', addTask 4 0%nat 3 nested pool_inline = Ok (SharedState 0) p''
         ∧ shared p'' !! 0%nat = Some (Ready (Value 7))
         ∧ taskQueue p'' = [].
Proof.
  edestruct (X15_submission_at_the_bound_returns_the_value 3 0%nat 3 nested
               pool_inline) as (Hret & _ & Hq & Hready & _).
  - reflexivity.
  - vm_compute. discriminate.
  - vm_compute. reflexivity.
  - eexists. split_and!; [exact Hret|exact Hready|].
    rewrite Hq. reflexivity.
Defined.

